(** * Verification of the FCPP real-time evaluation examples

    Shallow embedding of [lib/examples.hpp]: the timestamped gossip
    dictionary ([update], [discard], [max_value]), the round primitives the
    examples are written with ([old], [nbr], the neighbourhood folds), and the
    examples themselves ([lowpass], [integrate], [accumulate], [rdist],
    [maximize], [maxgossip], [dist], [election], [minintegral],
    [sharedcount], [hop_diameter], [stable_diameter]).  [election] and
    [hop_diameter] take the leader election of the FCPP library as a
    parameter; [closereach], which only forwards to the logic library of
    FCPP, is left out.

    Numeric types.  [real_t] and [times_t] are declared by the FCPP library,
    not by this repository; they are real-valued quantities and are embedded
    as exact rationals [Q], with no rounding and no overflow.  Equalities
    between computed numbers are therefore stated with [==]; dictionaries
    only move records around, so equalities between dictionaries are plain
    [=].  [hops_t] is a fixed-width signed integer, embedded as [Z] with the
    conversion wrap-around written out; its width is a parameter.

    Layout: the embedding of the source, the vocabulary of the statements,
    then the lemmas and theorems, grouped by function. *)

From Stdlib Require Import ZArith QArith Qabs Qround Lqa Lia.
From stdpp Require Import gmap list.

(** ** Auxiliary constants, types and non-distributed functions *)

(** Modelled from the spec: [device_t] is declared in the FCPP library; it is
    an opaque, totally ordered unsigned identifier. *)
Abbreviation device_t := N (only parsing).

(** Modelled from the spec: [times_t] and [real_t] are declared in the FCPP
    library; the spec calls both real-valued. *)
Abbreviation times_t := Q (only parsing).
Abbreviation real_t := Q (only parsing).

(** [std::pair<times_t, real_t>]: [first] is the timestamp, [second] the payload. *)
Abbreviation record := (Q * Q)%type (only parsing).

(** [std::unordered_map<device_t, std::pair<times_t, real_t>>] *)
Abbreviation time_dict := (gmap N (Q * Q)) (only parsing).

(** The comparison [a < b] of the source, as a boolean. *)
Definition Qltb (a b : Q) : bool :=
  match (a ?= b)%Q with Lt => true | _ => false end.

(** [std::max(a, b)], i.e. [(a < b) ? b : a]. *)
Definition max (a b : Q) : Q := if Qltb a b then b else a.

(** First loop of [update]: every entry of [x] whose key also occurs in [y]
    with a strictly later timestamp is overwritten in place. *)
Definition update_refresh (y : time_dict) (k : N) (v : Q * Q) (acc : time_dict)
  : time_dict :=
  match y !! k with
  | Some w => if Qltb v.1 w.1 then <[k := w]> acc else acc
  | None => acc
  end.

(** Second loop of [update]: keys of [y] that [x] lacks are inserted. *)
Definition update_adopt (k : N) (w : Q * Q) (acc : time_dict) : time_dict :=
  match acc !! k with
  | None => <[k := w]> acc
  | Some _ => acc
  end.

(** [time_dict update(time_dict x, time_dict const& y)] *)
Definition update (x y : time_dict) : time_dict :=
  let x1 := map_fold (update_refresh y) x x in
  map_fold update_adopt x1 y.

(** [time_dict& discard(time_dict& x, times_t t)]: the loop erases, entry by
    entry, what is older than [t]; the dictionary is returned. *)
Definition discard (x : time_dict) (t : Q) : time_dict :=
  map_fold (λ k v acc, if Qltb v.1 t then delete k acc else acc) x x.

(** [real_t max_value(time_dict const& dict)] *)
Definition max_value (dict : time_dict) : Q :=
  map_fold (λ _ kv val, max val kv.2) 0%Q dict.

(** [times_t delta_time(node_t const& node)] is defined with the round model
    below, once [node_t] is. *)

(** ** Round model

    The examples are written against the FCPP library: [ARGS] is the pair
    [node, call_point], [CODE] pushes [call_point] on the node's stack trace
    for the duration of the body, and every occurrence of [CALL] passes the
    node together with a fresh code point ([__COUNTER__]).  The embedding
    numbers the occurrences of [CALL] in [examples.hpp] in textual order,
    from 0. *)

(** The reals extended with the [INF] that [rdist] starts from. *)
Inductive ereal : Type :=
| Fin (q : Q)
| INF.

(** [a < b] on extended reals. *)
Definition eltb (a b : ereal) : bool :=
  match a, b with
  | Fin p, Fin q => Qltb p q
  | Fin _, INF => true
  | INF, _ => false
  end.

(** [min(a, b)] on extended reals, [(b < a) ? b : a]. *)
Definition emin (a b : ereal) : ereal := if eltb b a then b else a.

(** [a + b] on extended reals. *)
Definition eadd (a b : ereal) : ereal :=
  match a, b with
  | Fin p, Fin q => Fin (p + q)
  | _, _ => INF
  end.

(** What a call site can export: one constructor per exported type of the
    export lists ([real_t], [real_t] with [INF], [hops_t], [time_dict]). *)
Inductive value : Type :=
| VReal (x : Q)
| VEReal (x : ereal)
| VHops (h : Z)
| VDict (d : gmap N (Q * Q)).

(** The types a call site may export, with their image in [value]. *)
Class Exportable (A : Type) : Type := {
  pack : A → value;
  unpack : value → option A;
  unpack_pack : ∀ a, unpack (pack a) = Some a
}.

#[export] Instance real_exportable : Exportable Q := {|
  pack := VReal;
  unpack := λ v, match v with VReal x => Some x | _ => None end;
  unpack_pack := λ _, eq_refl
|}.

#[export] Instance ereal_exportable : Exportable ereal := {|
  pack := VEReal;
  unpack := λ v, match v with VEReal x => Some x | _ => None end;
  unpack_pack := λ _, eq_refl
|}.

#[export] Instance hops_exportable : Exportable Z := {|
  pack := VHops;
  unpack := λ v, match v with VHops x => Some x | _ => None end;
  unpack_pack := λ _, eq_refl
|}.

#[export] Instance dict_exportable : Exportable (gmap N (Q * Q)) := {|
  pack := VDict;
  unpack := λ v, match v with VDict x => Some x | _ => None end;
  unpack_pack := λ _, eq_refl
|}.

(** Modelled from the spec: the node object of the FCPP library, as far as
    the examples read it.  [context] holds, per device, the export of its
    most recent round known to this device; the entry under [uid] is the
    device's own export of its previous round (absent in its first round).
    [nbr_uid] lists the devices currently in the neighbourhood, the device
    itself included. *)
Record node_t : Type := Node {
  uid : N;
  current_time : Q;
  previous_time : Q;
  nbr_uid : list N;
  nbr_dist : N → Q;
  context : gmap N (gmap (list N) value)
}.

(** [times_t delta_time(node_t const& node)] *)
Definition delta_time (node : node_t) : Q :=
  if Qltb (previous_time node) 0 then 1%Q
  else (current_time node - previous_time node)%Q.

(** A round computation: it reads the node and the current stack trace and
    adds to the export of the round under construction. *)
Definition M (A : Type) : Type :=
  node_t → list N → gmap (list N) value → A * gmap (list N) value.

#[export] Instance M_ret : MRet M := λ A a, λ _ _ e, (a, e).

#[export] Instance M_bind : MBind M := λ A B k m,
  λ node stack e, let '(a, e1) := m node stack e in k a node stack e1.

(** The node a computation runs on. *)
Definition ask : M node_t := λ node _ e, (node, e).

(** [CODE]: the body of a [FUN] runs with its call point pushed on the stack. *)
Definition CODE {A} (call_point : N) (body : M A) : M A :=
  λ node stack e, body node (call_point :: stack) e.

(** What device [d] last exported under trace [t], if of type [A]. *)
Definition exported {A} `{Exportable A} (node : node_t) (d : N) (t : list N)
  : option A :=
  match context node !! d with
  | Some e => match e !! t with
              | Some v => unpack v
              | None => None
              end
  | None => None
  end.

(** Modelled from the spec: [old(CALL, f0, op)] of the FCPP library, the
    [retain] primitive: reads the device's slot for the call site ([f0] on
    the first visit), applies [op], writes the result back and returns it. *)
Definition old {A} `{Exportable A} (call_point : N) (f0 : A) (op : A → A) : M A :=
  λ node stack e,
    let t := call_point :: stack in
    let f := op (default f0 (exported node (uid node) t)) in
    (f, <[t := pack f]> e).

(** A neighbouring field: a value per device ([f0] where nothing is known). *)
Abbreviation field A := (N → A) (only parsing).

(** Modelled from the spec: [nbr(CALL, f0, op)] of the FCPP library, the
    [broadcastAndFold] primitive: [op] receives the field of the values the
    neighbours last exported for the call site ([f0] where a device exported
    none), and its result is exported and returned. *)
Definition nbr {A} `{Exportable A} (call_point : N) (f0 : A) (op : (N → A) → A)
  : M A :=
  λ node stack e,
    let t := call_point :: stack in
    let f := op (λ d, default f0 (exported node d t)) in
    (f, <[t := pack f]> e).

(** Modelled from the spec: [fold_hood(CALL, op, f)] of the FCPP library
    reduces the values of [f] over the neighbourhood, self included.  The
    spec leaves the order unspecified; the embedding follows [nbr_uid]. *)
Definition fold_hood {A} (node : node_t) (op : A → A → A) (f : N → A) : option A :=
  match nbr_uid node with
  | [] => None
  | d :: ds => Some (foldl (λ res j, op (f j) res) (f d) ds)
  end.

(** Modelled from the spec: [fold_hood(CALL, op, f, b)], the same with [b]
    standing for the device's own value. *)
Definition fold_hood_self {A} (node : node_t) (op : A → A → A) (f : N → A) (b : A)
  : A :=
  foldl (λ res j, if N.eqb j (uid node) then res else op (f j) res) b
        (nbr_uid node).

(** [mux(b, x, y)]: both branches are values already. *)
Definition mux {A} (b : bool) (x y : A) : A := if b then x else y.

(** ** Examples, ordered as in the source *)

(** [FUN real_t lowpass(ARGS, real_t v)] *)
Definition lowpass (call_point : N) (v : Q) : M Q :=
  CODE call_point (old 0 v (λ x, (x + v) / 2)%Q).

(** [FUN real_t integrate(ARGS, real_t v)] *)
Definition integrate (call_point : N) (v : Q) : M Q :=
  CODE call_point (
    node ← ask;
    old 1 0%Q (λ x, x + v * delta_time node)%Q).

(** [FUN real_t accumulate(ARGS, real_t v)] *)
Definition accumulate (call_point : N) (v : Q) : M Q :=
  CODE call_point (old 2 0%Q (λ x, x + v)%Q).

(** [FUN real_t rdist(ARGS, bool source)]: [min_hood(CALL, f, INF)] is
    [fold_hood] with [min] and [INF] for the device itself. *)
Definition rdist (call_point : N) (source : bool) : M ereal :=
  CODE call_point (
    node ← ask;
    nbr 3 INF (λ d,
      mux source (Fin 0)
          (fold_hood_self node emin (λ j, eadd (d j) (Fin (nbr_dist node j))) INF))).

(** [FUN real_t maximize(ARGS, real_t v, times_t threshold)].  The
    neighbourhood always contains the device, so [fold_hood] has a value;
    on an empty [nbr_uid] the embedding falls back on [loc]. *)
Definition maximize (call_point : N) (v : Q) (threshold : Q) : M Q :=
  CODE call_point (
    node ← ask;
    let loc : gmap N (Q * Q) := {[ uid node := (current_time node, v) ]} in
    glob ← nbr 5 loc (λ n,
      let x := update (default loc (fold_hood node update n)) loc in
      discard x (current_time node - threshold)%Q);
    mret (max_value glob)).

(** [FUN real_t maxgossip(ARGS, real_t v)] *)
Definition maxgossip (call_point : N) (v : Q) : M Q :=
  CODE call_point (
    node ← ask;
    nbr 7 v (λ n, max (default v (fold_hood node max n)) v)).

(** Modelled from the spec: [hops_t] is declared in the FCPP library, a
    signed integer type; [hops_bits] is its width (16 by default there). *)
Section Hops.
Variable hops_bits : Z.

(** [std::numeric_limits<hops_t>::max()] *)
Definition hops_limit : Z := (2 ^ (hops_bits - 1) - 1)%Z.

(** [constexpr hops_t HOPS_MAX = std::numeric_limits<hops_t>::max() - 1] *)
Definition HOPS_MAX : Z := (hops_limit - 1)%Z.

(** The values of [hops_t]. *)
Definition is_hops (z : Z) : Prop :=
  (- 2 ^ (hops_bits - 1) <= z <= hops_limit)%Z.

(** The conversion [(hops_t)z] of an integer, wrapping around. *)
Definition to_hops (z : Z) : Z :=
  ((z + 2 ^ (hops_bits - 1)) mod 2 ^ hops_bits - 2 ^ (hops_bits - 1))%Z.

(** [FUN hops_t dist(ARGS, bool source)]: the sum [min_hood(...) + 1] and the
    [mux] are computed on integers, the result is converted to [hops_t]. *)
Definition dist (call_point : N) (source : bool) : M Z :=
  CODE call_point (
    node ← ask;
    nbr 9 HOPS_MAX (λ d,
      to_hops (mux source 0 (fold_hood_self node Z.min d HOPS_MAX + 1))%Z)).

End Hops.

(** [diam_data]: (source, distance, diameter). *)
Abbreviation diam_data := (bool * Q * Q)%type (only parsing).

(** [a / b] where the exact reals have a quotient.  On the floating-point
    [real_t] of the library a division by zero gives an infinity or a NaN,
    which are no reals ([Qdiv], which is total, would make it [0]); [None]
    marks that the quotient has left the reals of the embedding. *)
Definition real_div (a b : Q) : option Q :=
  if Qeq_bool b 0 then None else Some (a / b)%Q.

(** [FUN diam_data stable_diameter(ARGS, bool source)].  The two calls of
    [integrate] write to slots of their own, so the order in which the
    operands of the division are evaluated does not matter.  The division
    has no guard in the source: in a round where the denominator is zero the
    source goes on, through [lowpass] and [maxgossip], with an infinity or
    a NaN.  The embedding has no such values: [None] there is not a result
    of the program, it marks a round the embedding does not describe, and
    nothing is stated about such rounds.  The embedding is faithful where
    the denominator is not zero, which is where the theorems below are. *)
Definition stable_diameter (call_point : N) (source : bool)
  : M (option (bool * Q * Q)) :=
  CODE call_point (
    d ← rdist 22 source;
    let z : Q := match d with INF => 0%Q | Fin q => q end in
    num ← integrate 23 z;
    den ← integrate 24 1%Q;
    match real_div num den with
    | None => mret None
    | Some avgd =>
        lp ← lowpass 26 avgd;
        diam ← maxgossip 25 lp;
        mret (Some (source, avgd, diam))
    end).

(** ** Further examples of the source *)

(** Modelled from the spec: [nbr(CALL, f)] of the FCPP library, the
    [broadcastAndFold] primitive on a plain value: [f] is exported, and the
    field returned holds [f] for the device itself and, for the other
    devices, what they last exported for the call site ([f] where a device
    exported none). *)
Definition nbr_value {A} `{Exportable A} (call_point : N) (f : A) : M (N → A) :=
  λ node stack e,
    let t := call_point :: stack in
    (λ d, if N.eqb d (uid node) then f else default f (exported node d t),
     <[t := pack f]> e).

(** [FUN bool minintegral(ARGS, real_t v)]: the field of [nbr(CALL, i)]
    holds reals, [min_hood] puts [INF] for the device itself, and [i] is
    compared with the minimum. *)
Definition minintegral (call_point : N) (v : Q) : M bool :=
  CODE call_point (
    i ← integrate 14 v;
    node ← ask;
    n ← nbr_value 16 i;
    mret (eltb (Fin i) (fold_hood_self node emin (λ j, Fin (n j)) INF))).

(** Modelled from the spec: [int] is a signed integer type of the platform;
    [int_bits] is its width.  An [int] is exported through the integer
    constructor of [value]. *)
Section Int.
Variable int_bits : Z.

(** [std::numeric_limits<int>::max()] *)
Definition int_limit : Z := (2 ^ (int_bits - 1) - 1)%Z.

(** The values of [int]. *)
Definition is_int (z : Z) : Prop := (- 2 ^ (int_bits - 1) <= z <= int_limit)%Z.

(** The result of an [int] operation whose exact value is [z], wrapping
    around. *)
Definition to_int (z : Z) : Z :=
  ((z + 2 ^ (int_bits - 1)) mod 2 ^ int_bits - 2 ^ (int_bits - 1))%Z.

(** [FUN int sharedcount(ARGS)]: [max_hood(CALL, n)] is [fold_hood] with
    [max]; on an empty [nbr_uid] the embedding falls back on the initial
    value 0. *)
Definition sharedcount (call_point : N) : M Z :=
  CODE call_point (
    node ← ask;
    nbr 17 0%Z (λ n, to_int (default 0 (fold_hood node Z.max n) + 1)%Z)).

End Int.

(** The leader election [wave_election] belongs to the FCPP coordination
    library; it is a parameter: a round computation that returns the
    identifier of the leader the device currently knows. *)
Section Election.
Variable wave_election : N → M N.

(** [FUN bool election(ARGS)] *)
Definition election (call_point : N) : M bool :=
  CODE call_point (
    leader ← wave_election 11;
    node ← ask;
    mret (N.eqb leader (uid node))).

(** [FUN diam_data hop_diameter(ARGS, times_t threshold)]: the hop count
    [d] is converted to [real_t] where it is passed to [maximize] and where
    it is stored in the result. *)
Definition hop_diameter (hops_bits : Z) (call_point : N) (threshold : Q)
  : M (bool * Q * Q) :=
  CODE call_point (
    source ← election 19;
    d ← dist hops_bits 20 source;
    diam ← maximize 21 (inject_Z d) threshold;
    mret (source, inject_Z d, diam)).

End Election.

(** ** Rounds of one device

    A schedule lists, round by round, the argument the program is called
    with and the node as the network presents it; the runner puts the
    device's own previous export into the context. *)

Definition with_own (node : node_t) (own : option (gmap (list N) value)) : node_t :=
  {| uid := uid node;
     current_time := current_time node;
     previous_time := previous_time node;
     nbr_uid := nbr_uid node;
     nbr_dist := nbr_dist node;
     context := match own with
                | Some e => <[uid node := e]> (context node)
                | None => delete (uid node) (context node)
                end |}.

(** One round: the program starts from an empty stack and an empty export. *)
Definition round {A} (prog : M A) (node : node_t) (own : option (gmap (list N) value))
  : A * gmap (list N) value :=
  prog (with_own node own) [] ∅.

Fixpoint run {I A} (prog : I → M A) (own : option (gmap (list N) value))
    (sched : list (I * node_t)) : list (A * gmap (list N) value) :=
  match sched with
  | [] => []
  | (i, node) :: rest =>
      let r := round (prog i) node own in
      r :: run prog (Some r.2) rest
  end.

(** ** Vocabulary of the statements *)

(** What [update] leaves under one key, from what both sides hold there. *)
Definition newer (a b : option (Q * Q)) : option (Q * Q) :=
  match a, b with
  | Some r, Some s => if Qltb r.1 s.1 then Some s else Some r
  | Some r, None => Some r
  | None, _ => b
  end.


(** The ways of folding a finite collection of dictionaries pairwise with
    [update]: a binary tree fixes the grouping, its fringe the order. *)
Inductive merge_order : Type :=
| Leaf (m : gmap N (Q * Q))
| Merge (l r : merge_order).

Fixpoint merge_all (t : merge_order) : gmap N (Q * Q) :=
  match t with
  | Leaf m => m
  | Merge l r => update (merge_all l) (merge_all r)
  end.

Fixpoint operands (t : merge_order) : list (gmap N (Q * Q)) :=
  match t with
  | Leaf m => [m]
  | Merge l r => operands l ++ operands r
  end.

(** Two dictionaries agree on simultaneous records: a key they share with
    equal timestamps carries the same record in both. *)
Definition coherent (x y : gmap N (Q * Q)) : Prop :=
  ∀ k a b, x !! k = Some a → y !! k = Some b → (a.1 == b.1)%Q → a = b.

(** [res] holds, under every key, a latest record among those the
    dictionaries of [l] hold under that key (and nothing if none does). *)
Definition latest_of (l : list (gmap N (Q * Q))) (res : gmap N (Q * Q)) : Prop :=
  ∀ k, match res !! k with
       | Some r => (∃ m, m ∈ l ∧ m !! k = Some r) ∧
                   (∀ m r', m ∈ l → m !! k = Some r' → (r'.1 <= r.1)%Q)
       | None => ∀ m, m ∈ l → m !! k = None
       end.

(** What the export [own] of the previous round retains under trace [t]. *)
Definition retained {A} `{Exportable A} (own : option (gmap (list N) value))
    (t : list N) : option A :=
  match own with
  | Some e => match e !! t with
              | Some v => unpack v
              | None => None
              end
  | None => None
  end.

(** A round after the first: [previous_time] is not negative, and the round
    does not start before the previous one. *)
Definition later_round (node : node_t) : Prop :=
  (0 <= previous_time node)%Q ∧ (previous_time node <= current_time node)%Q.

(** Monotone round times: [previous_time] is negative on the first round
    and on no other, and [current_time >= previous_time] on every round. *)
Definition monotone_times {I} (sched : list (I * node_t)) : Prop :=
  match sched with
  | [] => True
  | (_, first) :: rest =>
      (previous_time first < 0)%Q ∧
      (previous_time first <= current_time first)%Q ∧
      Forall (λ round_input, later_round round_input.2) rest
  end.

(** [a <= b] on extended reals: [b < a] does not hold. *)
Definition ele (a b : ereal) : Prop := eltb b a = false.

(** The running sums of a list of reals, from [acc]. *)
Fixpoint prefix_sums (acc : Q) (l : list Q) : list Q :=
  match l with
  | [] => []
  | v :: l => (acc + v)%Q :: prefix_sums (acc + v)%Q l
  end.

(** Rounds that follow one another from time [t]: the [previous_time] of
    each is the [current_time] of the one before, and is not negative. *)
Fixpoint chained (t : Q) (nodes : list node_t) : Prop :=
  match nodes with
  | [] => True
  | node :: rest =>
      (previous_time node == t)%Q ∧ (0 <= t)%Q ∧ chained (current_time node) rest
  end.

(** ** Concrete devices and schedules used in the examples below *)

(** A device alone in its first round, at time 0: nothing received, no
    previous export, [previous_time] at its negative sentinel. *)
Definition lone_node : node_t :=
  {| uid := 1; current_time := 0; previous_time := -1; nbr_uid := [1%N];
     nbr_dist := λ _, 0%Q; context := ∅ |}.

(** A device in a later round with one neighbour, device 2, whose last
    export for the [nbr] of [dist] called at code point 20 is 3 hops. *)
Definition node_with_neighbour : node_t :=
  {| uid := 1; current_time := 2; previous_time := 1; nbr_uid := [1%N; 2%N];
     nbr_dist := λ _, 1%Q;
     context := {[ 2%N := {[ [9%N; 20%N] := VHops 3 ]} ]} |}.

(** Three rounds of a device without neighbours, at times 0, 2 and 2; it
    is a source in the first round only. *)
Definition three_rounds : list (bool * node_t) :=
  [ (true, lone_node);
    (false, {| uid := 1; current_time := 2; previous_time := 0;
               nbr_uid := [1%N]; nbr_dist := λ _, 0%Q; context := ∅ |});
    (false, {| uid := 1; current_time := 2; previous_time := 2;
               nbr_uid := [1%N]; nbr_dist := λ _, 0%Q; context := ∅ |}) ].

(** A device at time 10 with one neighbour, device 2; both have exported a
    dictionary for the [nbr] of [maximize] called at code point 21: the
    device's own of the round before, and the neighbour's. *)
Definition gossip_node : node_t :=
  {| uid := 1; current_time := 10; previous_time := 9; nbr_uid := [1%N; 2%N];
     nbr_dist := λ _, 1%Q;
     context :=
       {[ 1%N := {[ [5%N; 21%N] :=
                      VDict {[ 1%N := (9%Q, 3%Q); 2%N := (8%Q, 7%Q) ]} ]};
          2%N := {[ [5%N; 21%N] :=
                      VDict {[ 1%N := (8%Q, 2%Q); 2%N := (9%Q, 4%Q) ]} ]} ]} |}.

(** The rounds of a device without neighbours that follow [lone_node], at
    times 2 and 5. *)
Definition later_rounds : list node_t :=
  [ {| uid := 1; current_time := 2; previous_time := 0; nbr_uid := [1%N];
       nbr_dist := λ _, 0%Q; context := ∅ |};
    {| uid := 1; current_time := 5; previous_time := 2; nbr_uid := [1%N];
       nbr_dist := λ _, 0%Q; context := ∅ |} ].

(** Three rounds of a device without neighbours with the inputs 3, 1, 2. *)
Definition input_rounds : list (Q * node_t) :=
  (3%Q, lone_node) :: zip [1%Q; 2%Q] later_rounds.

(** A device with one neighbour, device 2; for the [nbr] of [sharedcount]
    called at code point 0 the device last exported 4, the neighbour 6. *)
Definition counter_node : node_t :=
  {| uid := 1; current_time := 2; previous_time := 1; nbr_uid := [1%N; 2%N];
     nbr_dist := λ _, 1%Q;
     context := {[ 1%N := {[ [17%N; 0%N] := VHops 4 ]};
                   2%N := {[ [17%N; 0%N] := VHops 6 ]} ]} |}.

(** A device at time 10 with one neighbour, device 2, whose last export
    holds, for [hop_diameter] called at code point 0, a hop count of 3 and
    a gossip dictionary. *)
Definition diameter_node : node_t :=
  {| uid := 1; current_time := 10; previous_time := 9; nbr_uid := [1%N; 2%N];
     nbr_dist := λ _, 1%Q;
     context :=
       {[ 2%N := {[ [9%N; 20%N; 0%N] := VHops 3;
                    [5%N; 21%N; 0%N] :=
                      VDict {[ 1%N := (8%Q, 2%Q); 2%N := (9%Q, 4%Q) ]} ]} ]} |}.

(** Three rounds, at times 0, 2 and 5, of a device without neighbours that
    is a source in each. *)
Definition source_rounds : list (bool * node_t) :=
  (λ node, (true, node)) <$> lone_node :: later_rounds.

(** ** Elementary facts on the comparisons *)

Lemma Qltb_lt a b : Qltb a b = true ↔ (a < b)%Q.
Proof.
  unfold Qltb. rewrite Qlt_alt. destruct (a ?= b)%Q; split; congruence.
Qed.

Lemma Qltb_ge a b : Qltb a b = false ↔ (b <= a)%Q.
Proof.
  rewrite <- not_true_iff_false, Qltb_lt. split.
  - apply Qnot_lt_le.
  - intros Hle Hlt. apply (Qlt_irrefl a). eapply Qlt_le_trans; eauto.
Qed.

Ltac case_Qltb :=
  repeat match goal with
  | |- context [Qltb ?a ?b] =>
      let E := fresh "E" in
      destruct (Qltb a b) eqn:E;
      [apply Qltb_lt in E | apply Qltb_ge in E]
  end.

Lemma update_refresh_lookup (y acc0 x : time_dict) k :
  map_fold (update_refresh y) acc0 x !! k =
  match x !! k, y !! k with
  | Some v, Some w => if Qltb v.1 w.1 then Some w else acc0 !! k
  | _, _ => acc0 !! k
  end.
Proof.
  revert k.
  apply (map_fold_weak_ind (λ r m, ∀ k, r !! k =
    match m !! k, y !! k with
    | Some v, Some w => if Qltb v.1 w.1 then Some w else acc0 !! k
    | _, _ => acc0 !! k
    end)).
  - intros k. by rewrite lookup_empty.
  - intros i v m r Hi IH k. unfold update_refresh.
    destruct (decide (i = k)) as [->|Hne].
    + rewrite lookup_insert_eq. specialize (IH k). rewrite Hi in IH.
      destruct (y !! k) as [w|] eqn:Hy; [|done].
      destruct (Qltb v.1 w.1); [by rewrite lookup_insert_eq|done].
    + rewrite (lookup_insert_ne m) by done. rewrite <- IH.
      destruct (y !! i) as [w|]; [|done].
      destruct (Qltb v.1 w.1); [by rewrite lookup_insert_ne|done].
Qed.

Lemma update_adopt_lookup (acc0 y : time_dict) k :
  map_fold update_adopt acc0 y !! k =
  match acc0 !! k with Some a => Some a | None => y !! k end.
Proof.
  revert k.
  apply (map_fold_weak_ind (λ r m, ∀ k, r !! k =
    match acc0 !! k with Some a => Some a | None => m !! k end)).
  - intros k. rewrite lookup_empty. by destruct (acc0 !! k).
  - intros i w m r Hi IH k. unfold update_adopt.
    destruct (decide (i = k)) as [->|Hne].
    + rewrite lookup_insert_eq. pose proof (IH k) as IHk. rewrite Hi in IHk.
      destruct (r !! k) as [a|] eqn:Hr.
      * rewrite Hr, IHk. by destruct (acc0 !! k).
      * rewrite lookup_insert_eq. by destruct (acc0 !! k).
    + rewrite (lookup_insert_ne m) by done. rewrite <- IH.
      destruct (r !! i); [done|by rewrite lookup_insert_ne].
Qed.

Lemma update_lookup (x y : time_dict) k :
  update x y !! k = newer (x !! k) (y !! k).
Proof.
  unfold update. cbv zeta.
  rewrite update_adopt_lookup, update_refresh_lookup. unfold newer.
  destruct (x !! k) as [v|], (y !! k) as [w|]; try done.
  by destruct (Qltb v.1 w.1).
Qed.


(** ** The gossip dictionary: [update] *)

(** C2. For all dictionaries [x], [y] and every key [k]: when [k] is in both,
    [update x y] holds under [k] the record of [y] if its timestamp is strictly
    larger and the record of [x] otherwise (ties keep [x]); when [k] is in
    exactly one of them, it holds that side's record; and the keys of
    [update x y] are exactly the keys of [x] together with those of [y]. *)
Theorem update_merge_correct (x y : gmap N (Q * Q)) (k : N) :
  (∀ a b, x !! k = Some a → y !! k = Some b →
     ((a.1 < b.1)%Q → update x y !! k = Some b) ∧
     ((b.1 <= a.1)%Q → update x y !! k = Some a)) ∧
  (∀ a, x !! k = Some a → y !! k = None → update x y !! k = Some a) ∧
  (∀ b, x !! k = None → y !! k = Some b → update x y !! k = Some b) ∧
  dom (update x y) = dom x ∪ dom y.
Proof.
  split; [|split; [|split]].
  - intros a b Hx Hy. rewrite update_lookup, Hx, Hy. cbn. split.
    + intros Hlt. apply Qltb_lt in Hlt. by rewrite Hlt.
    + intros Hge. apply Qltb_ge in Hge. by rewrite Hge.
  - intros a Hx Hy. by rewrite update_lookup, Hx, Hy.
  - intros b Hx Hy. by rewrite update_lookup, Hx, Hy.
  - apply set_eq. intros j.
    rewrite elem_of_union, !elem_of_dom, update_lookup. unfold newer.
    destruct (x !! j) as [a|], (y !! j) as [b|]; cbn;
      try destruct (Qltb a.1 b.1); split; intros; eauto;
      destruct_or?; by try match goal with H : is_Some None |- _ =>
                                   destruct H end.
Qed.

Lemma newer_assoc a b c : newer (newer a b) c = newer a (newer b c).
Proof.
  destruct a as [[ta pa]|], b as [[tb pb]|], c as [[tc pc]|]; cbn; try done;
    case_Qltb; cbn in *; try done; case_Qltb; cbn in *; try done; lra.
Qed.

Lemma update_assoc (x y z : gmap N (Q * Q)) :
  update (update x y) z = update x (update y z).
Proof. apply map_eq. intros k. rewrite !update_lookup. apply newer_assoc. Qed.

Lemma update_comm (x y : gmap N (Q * Q)) :
  coherent x y → update x y = update y x.
Proof.
  intros Hxy. apply map_eq. intros k. rewrite !update_lookup.
  destruct (x !! k) as [a|] eqn:Hx, (y !! k) as [b|] eqn:Hy; cbn; try done.
  case_Qltb; try done; [lra|].
  f_equal. apply (Hxy k); [done..|]. lra.
Qed.

Lemma latest_of_singleton m : latest_of [m] m.
Proof.
  intros k. destruct (m !! k) as [r|] eqn:Hm.
  - split.
    + exists m. split; [apply list_elem_of_singleton; done|done].
    + intros m' r' ->%list_elem_of_singleton Hr'.
      rewrite Hm in Hr'. injection Hr' as <-. lra.
  - by intros m' ->%list_elem_of_singleton.
Qed.

Lemma latest_of_update l1 l2 a b :
  latest_of l1 a → latest_of l2 b → latest_of (l1 ++ l2) (update a b).
Proof.
  intros Ha Hb k. specialize (Ha k). specialize (Hb k).
  rewrite update_lookup.
  destruct (a !! k) as [r|], (b !! k) as [s|]; cbn.
  - destruct Ha as [(ma & Hma & Hr) Ha], Hb as [(mb & Hmb & Hs) Hb].
    case_Qltb.
    + split; [exists mb; split; [apply elem_of_app; by right|done]|].
      intros m r' [Hm|Hm]%elem_of_app Hr'.
      * specialize (Ha m r' Hm Hr'). lra.
      * by apply (Hb m).
    + split; [exists ma; split; [apply elem_of_app; by left|done]|].
      intros m r' [Hm|Hm]%elem_of_app Hr'.
      * by apply (Ha m).
      * specialize (Hb m r' Hm Hr'). lra.
  - destruct Ha as [(ma & Hma & Hr) Ha].
    split; [exists ma; split; [apply elem_of_app; by left|done]|].
    intros m r' [Hm|Hm]%elem_of_app Hr'; [by apply (Ha m)|].
    rewrite (Hb m Hm) in Hr'. discriminate.
  - destruct Hb as [(mb & Hmb & Hs) Hb].
    split; [exists mb; split; [apply elem_of_app; by right|done]|].
    intros m r' [Hm|Hm]%elem_of_app Hr'; [|by apply (Hb m)].
    rewrite (Ha m Hm) in Hr'. discriminate.
  - intros m [Hm|Hm]%elem_of_app; [by apply Ha|by apply Hb].
Qed.

Lemma latest_of_perm l1 l2 res : l1 ≡ₚ l2 → latest_of l1 res → latest_of l2 res.
Proof.
  intros Hp Hres k. specialize (Hres k).
  destruct (res !! k) as [r|].
  - destruct Hres as [(m & Hm & Hr) Hmax]. split.
    + exists m. by rewrite <- Hp.
    + intros m' r' Hm'. rewrite <- Hp in Hm'. by apply Hmax.
  - intros m Hm. rewrite <- Hp in Hm. by apply Hres.
Qed.

Lemma latest_of_unique l a b :
  (∀ x y, x ∈ l → y ∈ l → coherent x y) →
  latest_of l a → latest_of l b → a = b.
Proof.
  intros Hco Ha Hb. apply map_eq. intros k.
  specialize (Ha k). specialize (Hb k).
  destruct (a !! k) as [r|], (b !! k) as [s|]; try done.
  - destruct Ha as [(ma & Hma & Hr) Ha], Hb as [(mb & Hmb & Hs) Hb].
    f_equal. apply (Hco ma mb Hma Hmb k); [done..|].
    specialize (Ha mb s Hmb Hs). specialize (Hb ma r Hma Hr). lra.
  - destruct Ha as [(ma & Hma & Hr) _]. rewrite (Hb ma Hma) in Hr. discriminate.
  - destruct Hb as [(mb & Hmb & Hs) _]. rewrite (Ha mb Hmb) in Hs. discriminate.
Qed.

Lemma merge_all_latest t : latest_of (operands t) (merge_all t).
Proof.
  induction t as [m|l IHl r IHr]; cbn.
  - apply latest_of_singleton.
  - by apply latest_of_update.
Qed.

Lemma foldl_update_latest (n : N → gmap N (Q * Q)) ds l acc :
  latest_of l acc →
  latest_of ((n <$> ds) ++ l) (foldl (λ res j, update (n j) res) acc ds).
Proof.
  revert l acc. induction ds as [|j ds IH]; intros l acc Hacc; [done|].
  cbn [foldl]. apply (latest_of_perm ((n <$> ds) ++ n j :: l)).
  { rewrite fmap_cons. by rewrite <- Permutation_middle. }
  apply IH. apply (latest_of_update [n j] l); [apply latest_of_singleton|done].
Qed.

Lemma fold_hood_update_latest node (n : N → gmap N (Q * Q)) :
  match fold_hood node update n with
  | Some x => latest_of (n <$> nbr_uid node) x
  | None => nbr_uid node = []
  end.
Proof.
  unfold fold_hood. destruct (nbr_uid node) as [|d ds]; [done|].
  apply (latest_of_perm ((n <$> ds) ++ [n d])).
  { rewrite fmap_cons. by rewrite <- Permutation_middle, app_nil_r. }
  apply foldl_update_latest, latest_of_singleton.
Qed.

(** C1, as amended. [update] is associative on all dictionaries; it is
    commutative on dictionaries that agree on simultaneous records; folding
    a finite collection of dictionaries that pairwise agree on simultaneous
    records gives the same dictionary for every grouping and every order of
    the operands; in particular [fold_hood] with [update], as [maximize]
    calls it, does not depend on the order of the neighbourhood then. *)
Theorem update_fold_order_independent :
  (∀ x y z, update (update x y) z = update x (update y z)) ∧
  (∀ x y, coherent x y → update x y = update y x) ∧
  (∀ t1 t2,
     operands t1 ≡ₚ operands t2 →
     (∀ x y, x ∈ operands t1 → y ∈ operands t1 → coherent x y) →
     merge_all t1 = merge_all t2) ∧
  (∀ node node' (n : N → gmap N (Q * Q)),
     nbr_uid node ≡ₚ nbr_uid node' →
     (∀ i j, i ∈ nbr_uid node → j ∈ nbr_uid node → coherent (n i) (n j)) →
     fold_hood node update n = fold_hood node' update n).
Proof.
  split; [exact update_assoc|split; [exact update_comm|split]].
  - intros t1 t2 Hp Hco.
    apply (latest_of_unique (operands t1)); [done|apply merge_all_latest|].
    apply (latest_of_perm (operands t2)); [done|apply merge_all_latest].
  - intros node node' n Hp Hco.
    pose proof (fold_hood_update_latest node n) as H1.
    pose proof (fold_hood_update_latest node' n) as H2.
    unfold fold_hood in *.
    destruct (nbr_uid node) as [|d ds], (nbr_uid node') as [|d' ds'].
    + done.
    + by apply Permutation_nil_cons in Hp.
    + symmetry in Hp. by apply Permutation_nil_cons in Hp.
    + f_equal. apply (latest_of_unique (n <$> d :: ds)); [|done|].
      * intros a b (i & -> & Hi)%list_elem_of_fmap (j & -> & Hj)%list_elem_of_fmap.
        by apply Hco.
      * apply (latest_of_perm (n <$> d' :: ds')); [by rewrite Hp|done].
Qed.

(** C1 as stated fails: two dictionaries holding different payloads under
    the same key with equal timestamps merge differently in the two orders
    (each order keeps the record of its left operand). *)
Lemma update_not_commutative :
  ¬ (∀ x y : gmap N (Q * Q), update x y = update y x).
Proof.
  intros Hcomm.
  specialize (Hcomm {[1%N := (0%Q, 1%Q)]} {[1%N := (0%Q, 2%Q)]}).
  apply (f_equal (λ m : gmap N (Q * Q), m !! 1%N)) in Hcomm.
  vm_compute in Hcomm. discriminate.
Qed.

Example update_disjoint_and_shared :
  update {[ 1%N := (1%Q, 10%Q); 2%N := (5%Q, 20%Q) ]}
         {[ 2%N := (7%Q, 30%Q); 3%N := (0%Q, 40%Q) ]} =
  {[ 1%N := (1%Q, 10%Q); 2%N := (7%Q, 30%Q); 3%N := (0%Q, 40%Q) ]}.
Proof. vm_compute. reflexivity. Qed.

Example update_tie_keeps_left :
  update {[ 1%N := (0%Q, 1%Q) ]} {[ 1%N := (0%Q, 2%Q) ]} = {[ 1%N := (0%Q, 1%Q) ]} ∧
  update {[ 1%N := (0%Q, 2%Q) ]} {[ 1%N := (0%Q, 1%Q) ]} = {[ 1%N := (0%Q, 2%Q) ]}.
Proof. split; vm_compute; reflexivity. Qed.

(** ** The gossip dictionary: [discard] *)

Lemma discard_fold_lookup (t : Q) (acc0 x : gmap N (Q * Q)) k :
  map_fold (λ k v acc, if Qltb v.1 t then delete k acc else acc) acc0 x !! k =
  match x !! k with
  | Some v => if Qltb v.1 t then None else acc0 !! k
  | None => acc0 !! k
  end.
Proof.
  revert k.
  apply (map_fold_weak_ind (λ r m, ∀ k, r !! k =
    match m !! k with
    | Some v => if Qltb v.1 t then None else acc0 !! k
    | None => acc0 !! k
    end)).
  - intros k. by rewrite lookup_empty.
  - intros i v m r Hi IH k. destruct (decide (i = k)) as [->|Hne].
    + rewrite lookup_insert_eq. specialize (IH k). rewrite Hi in IH.
      destruct (Qltb v.1 t); [by rewrite lookup_delete_eq|done].
    + rewrite (lookup_insert_ne m) by done. rewrite <- IH.
      destruct (Qltb v.1 t); [by rewrite lookup_delete_ne|done].
Qed.

Lemma discard_lookup (m : gmap N (Q * Q)) (t : Q) k :
  discard m t !! k =
  match m !! k with
  | Some r => if Qltb r.1 t then None else Some r
  | None => None
  end.
Proof.
  unfold discard. rewrite discard_fold_lookup.
  destruct (m !! k) as [r|] eqn:Hm; [|done]. by destruct (Qltb r.1 t).
Qed.

(** C6. [discard m t] removes exactly the records whose timestamp is strictly
    less than [t] and leaves every other record as it is; discarding twice
    with the same [t] is discarding once. *)
Theorem discard_exact_idempotent (m : gmap N (Q * Q)) (t : Q) :
  (∀ k r, m !! k = Some r → (r.1 < t)%Q → discard m t !! k = None) ∧
  (∀ k r, m !! k = Some r → ¬ (r.1 < t)%Q → discard m t !! k = Some r) ∧
  (∀ k, m !! k = None → discard m t !! k = None) ∧
  discard (discard m t) t = discard m t.
Proof.
  repeat split.
  - intros k r Hm Hlt. rewrite discard_lookup, Hm.
    apply Qltb_lt in Hlt. by rewrite Hlt.
  - intros k r Hm Hge. rewrite discard_lookup, Hm.
    destruct (Qltb r.1 t) eqn:E; [|done]. by apply Qltb_lt in E.
  - intros k Hm. by rewrite discard_lookup, Hm.
  - apply map_eq. intros k. rewrite !discard_lookup.
    destruct (m !! k) as [r|]; [|done].
    destruct (Qltb r.1 t) eqn:E; [done|]. by rewrite E.
Qed.

Example discard_keeps_threshold :
  discard {[ 1%N := (1%Q, 10%Q); 2%N := (5%Q, 20%Q) ]} 5 = {[ 2%N := (5%Q, 20%Q) ]}.
Proof. vm_compute. reflexivity. Qed.

(** ** The gossip dictionary: [max_value] *)

Lemma max_cases a b :
  (max a b = a ∧ (b <= a)%Q) ∨ (max a b = b ∧ (a < b)%Q).
Proof. unfold max. case_Qltb; auto. Qed.

Lemma max_value_spec (m : gmap N (Q * Q)) :
  (0 <= max_value m)%Q ∧
  (∀ k r, m !! k = Some r → (r.2 <= max_value m)%Q) ∧
  (max_value m = 0%Q ∨ ∃ k r, m !! k = Some r ∧ max_value m = r.2).
Proof.
  unfold max_value.
  apply (map_fold_weak_ind (λ val m,
    (0 <= val)%Q ∧
    (∀ k r, m !! k = Some r → (r.2 <= val)%Q) ∧
    (val = 0%Q ∨ ∃ k r, m !! k = Some r ∧ val = r.2))).
  - split; [lra|]. split; [|by left].
    intros k r Hk. by rewrite lookup_empty in Hk.
  - intros i v m' val Hi (Hpos & Hub & Hin).
    destruct (max_cases val v.2) as [[-> Hle]|[-> Hlt]].
    + split; [done|]. split.
      * intros k r. destruct (decide (i = k)) as [->|Hne].
        -- rewrite lookup_insert_eq. by intros [= <-].
        -- rewrite lookup_insert_ne by done. apply Hub.
      * destruct Hin as [->|(k & r & Hk & ->)]; [by left|].
        right. exists k, r. split; [|done].
        rewrite lookup_insert_ne; [done|]. intros ->. congruence.
    + split; [lra|]. split.
      * intros k r. destruct (decide (i = k)) as [->|Hne].
        -- rewrite lookup_insert_eq. intros [= <-]. lra.
        -- rewrite lookup_insert_ne by done. intros Hk.
           specialize (Hub k r Hk). lra.
      * right. exists i, v. by rewrite lookup_insert_eq.
Qed.

Example max_value_of_two :
  max_value {[ 1%N := (1%Q, 10%Q); 2%N := (5%Q, 20%Q) ]} = 20%Q.
Proof. reflexivity. Qed.

(** ** [maximize] *)

(** The dictionary [maximize] exports: the neighbours' dictionaries folded
    with [update], the device's own singleton merged in, old records
    discarded; the value returned is [max_value] of it. *)
Lemma maximize_unfold cp v threshold node stack e :
  maximize cp v threshold node stack e =
  let loc : gmap N (Q * Q) := {[ uid node := (current_time node, v) ]} in
  let t := 5%N :: cp :: stack in
  let n := λ d, default loc (exported node d t) in
  let glob := discard (update (default loc (fold_hood node update n)) loc)
                      (current_time node - threshold)%Q in
  (max_value glob, <[t := VDict glob]> e).
Proof. reflexivity. Qed.

(** C10. [max_value] is 0 on the empty dictionary; on every dictionary it is
    the maximum of 0 and the payloads: at least 0, at least every payload,
    and equal to 0 or to one of the payloads.  Hence [maximize] never returns
    a negative value, and returns 0 when every payload of the merged, expired
    dictionary it exports is strictly negative. *)
Theorem max_value_floor_zero :
  max_value ∅ = 0%Q ∧
  (∀ m : gmap N (Q * Q),
     (0 <= max_value m)%Q ∧
     (∀ k r, m !! k = Some r → (r.2 <= max_value m)%Q) ∧
     (max_value m = 0%Q ∨ ∃ k r, m !! k = Some r ∧ max_value m = r.2)) ∧
  (∀ cp v threshold node stack e,
     let res := maximize cp v threshold node stack e in
     (0 <= res.1)%Q ∧
     ∀ glob : gmap N (Q * Q),
       res.2 !! (5%N :: cp :: stack) = Some (VDict glob) →
       (∀ k r, glob !! k = Some r → (r.2 < 0)%Q) →
       res.1 = 0%Q).
Proof.
  split; [reflexivity|]. split; [exact max_value_spec|].
  intros cp v threshold node stack e res. subst res.
  rewrite maximize_unfold. cbn zeta. cbn [fst snd]. split.
  - apply max_value_spec.
  - intros glob. rewrite lookup_insert_eq. intros [= <-] Hneg.
    match goal with |- max_value ?g = _ =>
      destruct (max_value_spec g) as (Hpos & _ & [H0|(k & r & Hk & Hr)]) end;
      [done|].
    specialize (Hneg k r Hk). rewrite Hr in Hpos. lra.
Qed.

(** C4, at the failing input: a device alone with local value -1 and
    threshold 0 exports the dictionary holding its own record, whose only
    payload is -1, and [maximize] returns 0. *)
Theorem maximize_negative_value :
  maximize 21 (-1) 0 lone_node [] ∅ =
  (0%Q, {[ [5%N; 21%N] := VDict {[ 1%N := (0%Q, (-1)%Q) ]} ]}).
Proof. vm_compute. reflexivity. Qed.

(** ** [dist] *)

Lemma fold_hood_self_min (node : node_t) (f : N → Z) (b : Z) :
  (fold_hood_self node Z.min f b <= b)%Z ∧
  (fold_hood_self node Z.min f b = b ∨
   ∃ j, j ∈ nbr_uid node ∧ fold_hood_self node Z.min f b = f j).
Proof.
  unfold fold_hood_self. generalize (nbr_uid node). intros l. revert b.
  induction l as [|j l IH]; intros b; cbn.
  - split; [lia|by left].
  - destruct (N.eqb j (uid node)).
    + destruct (IH b) as [Hle [Heq|(j' & Hj' & Heq)]].
      * split; [done|by left].
      * split; [done|]. right. exists j'. split; [by right|done].
    + destruct (IH (Z.min (f j) b)) as [Hle [Heq|(j' & Hj' & Heq)]].
      * split; [lia|]. rewrite Heq.
        destruct (Z.min_spec (f j) b) as [[_ ->]|[_ ->]]; [|by left].
        right. exists j. split; [by left|done].
      * split; [lia|]. right. exists j'. split; [by right|done].
Qed.

Lemma to_hops_id bits z : (0 < bits)%Z → is_hops bits z → to_hops bits z = z.
Proof.
  unfold is_hops, to_hops, hops_limit. intros Hb Hz.
  assert (2 ^ bits = 2 * 2 ^ (bits - 1))%Z as ->.
  { rewrite <- Z.pow_succ_r by lia. f_equal. lia. }
  rewrite Z.mod_small; lia.
Qed.

(** C3, as amended. On a field of [hops_t] values [dist] returns 0 on a
    source and [min_hood(d, HOPS_MAX) + 1] elsewhere, exactly: the minimum is
    at most [HOPS_MAX], so the sum is at most [HOPS_MAX + 1], which is the
    maximum of [hops_t], and the conversion to [hops_t] does not wrap. *)
Theorem dist_within_hops_limit bits cp source node stack e :
  (0 < bits)%Z →
  (∀ j, j ∈ nbr_uid node →
     is_hops bits (default (HOPS_MAX bits) (exported node j (9%N :: cp :: stack)))) →
  let d := λ j, default (HOPS_MAX bits) (exported node j (9%N :: cp :: stack)) in
  let r := (dist bits cp source node stack e).1 in
  (fold_hood_self node Z.min d (HOPS_MAX bits) <= HOPS_MAX bits)%Z ∧
  r = (if source then 0 else fold_hood_self node Z.min d (HOPS_MAX bits) + 1)%Z ∧
  (r <= HOPS_MAX bits + 1)%Z ∧
  (HOPS_MAX bits + 1 = hops_limit bits)%Z ∧
  is_hops bits r.
Proof.
  intros Hb Hfield d r.
  destruct (fold_hood_self_min node d (HOPS_MAX bits)) as [Hle Hcases].
  assert (0 < 2 ^ (bits - 1))%Z as Hpow by (apply Z.pow_pos_nonneg; lia).
  assert (is_hops bits
            (mux source 0 (fold_hood_self node Z.min d (HOPS_MAX bits) + 1))%Z)
    as Hin.
  { unfold mux. destruct source.
    - unfold is_hops, hops_limit. lia.
    - destruct Hcases as [Heq|(j & Hj & Heq)]; rewrite Heq.
      + unfold is_hops, HOPS_MAX, hops_limit. lia.
      + rewrite Heq in Hle. specialize (Hfield j Hj). fold (d j) in Hfield.
        unfold is_hops, HOPS_MAX, hops_limit in *. lia. }
  assert (r = mux source 0 (fold_hood_self node Z.min d (HOPS_MAX bits) + 1))%Z
    as Hr.
  { subst r. unfold dist, CODE, nbr, ask, mbind, M_bind. cbn [fst].
    by apply to_hops_id. }
  split; [done|]. split; [by rewrite Hr; destruct source|].
  split; [|split].
  - rewrite Hr. unfold mux. destruct source; [|lia].
    unfold HOPS_MAX, hops_limit. lia.
  - unfold HOPS_MAX. lia.
  - by rewrite Hr.
Qed.

Lemma dist_within_hops_limit_witness :
  let d := λ j, default (HOPS_MAX 16)
                        (exported node_with_neighbour j [9%N; 20%N]) in
  let r := (dist 16 20 false node_with_neighbour [] ∅).1 in
  (fold_hood_self node_with_neighbour Z.min d (HOPS_MAX 16) <= HOPS_MAX 16)%Z ∧
  r = (fold_hood_self node_with_neighbour Z.min d (HOPS_MAX 16) + 1)%Z ∧
  (r <= HOPS_MAX 16 + 1)%Z ∧
  (HOPS_MAX 16 + 1 = hops_limit 16)%Z ∧
  is_hops 16 r.
Proof.
  apply (dist_within_hops_limit 16 20 false node_with_neighbour [] ∅).
  - lia.
  - intros j Hj. cbn in Hj.
    repeat (apply elem_of_cons in Hj as [->|Hj]);
      [vm_compute; split; discriminate..|].
    by apply elem_of_nil in Hj.
Defined.

(** C3 as stated fails: [dist] is not capped at [HOPS_MAX].  A device that
    is no source and has no neighbour returns [HOPS_MAX + 1]. *)
Lemma dist_exceeds_HOPS_MAX :
  (dist 16 20 false lone_node [] ∅).1 = 32767%Z ∧
  HOPS_MAX 16 = 32766%Z ∧
  ¬ (∀ cp source node stack e,
       ((dist 16 cp source node stack e).1 <= HOPS_MAX 16)%Z).
Proof.
  split; [reflexivity|]. split; [reflexivity|].
  intros Hcap. specialize (Hcap 20%N false lone_node [] ∅).
  vm_compute in Hcap. by apply Hcap.
Qed.

(** ** Rounds *)

Lemma exported_with_own {A} `{Exportable A} node own t :
  exported (A:=A) (with_own node own) (uid node) t = retained own t.
Proof.
  unfold exported, retained, with_own. cbn.
  destruct own as [e|]; [by rewrite lookup_insert_eq|by rewrite lookup_delete_eq].
Qed.

Lemma retained_insert_eq {A} `{Exportable A} e t (a : A) :
  retained (Some (<[t := pack a]> e)) t = Some a.
Proof. unfold retained. rewrite lookup_insert_eq. apply unpack_pack. Qed.

Lemma retained_insert_ne {A} `{Exportable A} e t t' v :
  t' ≠ t → retained (A:=A) (Some (<[t' := v]> e)) t = retained (Some e) t.
Proof. intros Hne. unfold retained. by rewrite lookup_insert_ne. Qed.

Lemma run_length {I A} (prog : I → M A) own sched :
  length (run prog own sched) = length sched.
Proof.
  revert own. induction sched as [|[i node] rest IH]; intros own; [done|].
  cbn. by rewrite IH.
Qed.

Lemma run_first {I A} (prog : I → M A) own sched i node :
  sched !! 0%nat = Some (i, node) →
  run prog own sched !! 0%nat = Some (round (prog i) node own).
Proof. destruct sched as [|[i0 n0] rest]; [done|]. by intros [= -> ->]. Qed.

Lemma run_step {I A} (prog : I → M A) own sched n r i node :
  run prog own sched !! n = Some r →
  sched !! S n = Some (i, node) →
  run prog own sched !! S n = Some (round (prog i) node (Some r.2)).
Proof.
  revert own n. induction sched as [|[i0 n0] rest IH]; intros own n; [done|].
  destruct n as [|n]; cbn.
  - intros [= <-] Hs. by apply run_first.
  - apply IH.
Qed.

Lemma run_lookup_round {I A} (prog : I → M A) own sched n r :
  run prog own sched !! n = Some r →
  ∃ i node own', sched !! n = Some (i, node) ∧ r = round (prog i) node own'.
Proof.
  revert own n. induction sched as [|[i0 n0] rest IH]; intros own n; [done|].
  destruct n as [|n]; cbn.
  - intros [= <-]. by exists i0, n0, own.
  - apply IH.
Qed.

(** ** [integrate] *)

Lemma integrate_round cp v node own :
  round (integrate cp v) node own =
  let x := (default 0 (retained own [1%N; cp]) + v * delta_time node)%Q in
  (x, <[ [1%N; cp] := VReal x ]> ∅).
Proof.
  unfold round, integrate, CODE, old, ask, mbind, M_bind. cbn.
  change (uid (with_own node own)) with (uid node).
  by rewrite !exported_with_own.
Qed.

(** C8. [integrate] returns [previous + v * elapsed] and retains it:
    [previous] is the value the device retained for the call site, 0 on its
    first visit; [elapsed] is 1 when [previous_time] is negative (the first
    round) and [current_time - previous_time] otherwise.  Round after round,
    the value retained is the value returned the round before. *)
Theorem integrate_step cp :
  (∀ v node stack e,
     let t := 1%N :: cp :: stack in
     let previous := default 0%Q (exported node (uid node) t) in
     let res := integrate cp v node stack e in
     res.1 = (previous + v * delta_time node)%Q ∧
     res.2 = <[t := VReal res.1]> e ∧
     (exported (A:=Q) node (uid node) t = None → previous = 0%Q)) ∧
  (∀ node,
     ((previous_time node < 0)%Q → delta_time node = 1%Q) ∧
     (¬ (previous_time node < 0)%Q →
      delta_time node = (current_time node - previous_time node)%Q)) ∧
  (∀ sched v node,
     sched !! 0%nat = Some (v, node) →
     ∃ r, run (integrate cp) None sched !! 0%nat = Some r ∧
          r.1 = (0 + v * delta_time node)%Q) ∧
  (∀ own sched n r v node,
     run (integrate cp) own sched !! n = Some r →
     sched !! S n = Some (v, node) →
     ∃ r', run (integrate cp) own sched !! S n = Some r' ∧
           r'.1 = (r.1 + v * delta_time node)%Q).
Proof.
  split; [|split; [|split]].
  - intros v node stack e t previous res. split; [reflexivity|].
    split; [reflexivity|]. intros Hnone. subst previous. by rewrite Hnone.
  - intros node. unfold delta_time. split.
    + intros Hlt. apply Qltb_lt in Hlt. by rewrite Hlt.
    + intros Hge. destruct (Qltb (previous_time node) 0) eqn:E; [|done].
      by apply Qltb_lt in E.
  - intros sched v node Hs. eexists. split; [by apply run_first|].
    by rewrite integrate_round.
  - intros own sched n r v node Hr Hs. eexists.
    split; [by eapply run_step|].
    pose proof (run_length (integrate cp) own sched) as Hlen.
    assert (r.2 !! [1%N; cp] = Some (VReal r.1)) as Hslot.
    { clear Hs. revert own n Hr Hlen.
      induction sched as [|[v0 n0] rest IH]; intros own n Hr Hlen; [done|].
      destruct n as [|n]; cbn in Hr.
      - injection Hr as <-. rewrite integrate_round. cbn.
        by rewrite lookup_insert_eq.
      - eapply IH; [exact Hr|apply run_length]. }
    rewrite integrate_round. cbn. by rewrite Hslot.
Qed.

Example integrate_two_rounds :
  (run (integrate 0) None
       [ (2%Q, lone_node);
         (3%Q, {| uid := 1; current_time := 5; previous_time := 3;
                  nbr_uid := [1%N]; nbr_dist := λ _, 0%Q; context := ∅ |}) ]).*1 =
  [2%Q; 8%Q].
Proof. vm_compute. reflexivity. Qed.

(** ** [lowpass] *)

Lemma lowpass_round cp v node own :
  round (lowpass cp v) node own =
  let x := ((default v (retained own [0%N; cp]) + v) / 2)%Q in
  (x, <[ [0%N; cp] := VReal x ]> ∅).
Proof.
  unfold round, lowpass, CODE, old. cbn.
  change (uid (with_own node own)) with (uid node).
  by rewrite !exported_with_own.
Qed.

Lemma halfway_distance (x c : Q) :
  (Qabs ((x + c) / 2 - c) == Qabs (x - c) / 2)%Q.
Proof.
  assert ((x + c) / 2 - c == (x - c) * (1 # 2))%Q as -> by field.
  rewrite Qabs_Qmult. change (Qabs (1 # 2)) with (1 # 2)%Q. field.
Qed.

Lemma lowpass_run_slot cp (c : Q) own sched n a :
  run (lowpass cp) own sched !! n = Some a →
  retained (Some a.2) [0%N; cp] = Some a.1.
Proof.
  intros (v & node & own' & _ & ->)%run_lookup_round.
  rewrite lowpass_round. cbn. by rewrite lookup_insert_eq.
Qed.

Lemma lowpass_run_first cp (c : Q) own (nodes : list node_t) a :
  run (lowpass cp) own ((λ node, (c, node)) <$> nodes) !! 0%nat = Some a →
  (Qabs (a.1 - c) == Qabs (default c (retained own [0%N; cp]) - c) / 2)%Q.
Proof.
  intros Ha. destruct nodes as [|node nodes]; [done|].
  cbn in Ha. injection Ha as <-. rewrite lowpass_round. cbn.
  apply halfway_distance.
Qed.

Lemma lowpass_run_next cp (c : Q) own (nodes : list node_t) n a b :
  run (lowpass cp) own ((λ node, (c, node)) <$> nodes) !! n = Some a →
  run (lowpass cp) own ((λ node, (c, node)) <$> nodes) !! S n = Some b →
  (Qabs (b.1 - c) == Qabs (a.1 - c) / 2)%Q.
Proof.
  intros Ha Hb.
  destruct (run_lookup_round _ _ _ _ _ Hb) as (v & node & own' & Hs & _).
  pose proof Hs as Hv. rewrite list_lookup_fmap in Hv.
  destruct (nodes !! S n); [|done]. cbn in Hv. injection Hv as <- <-.
  rewrite (run_step _ _ _ _ _ _ _ Ha Hs) in Hb. injection Hb as <-.
  rewrite lowpass_round. cbn zeta. cbn [fst].
  rewrite (lowpass_run_slot cp c _ _ _ _ Ha). cbn.
  apply halfway_distance.
Qed.

Lemma lowpass_run_closed cp (c : Q) own (nodes : list node_t) n a :
  run (lowpass cp) own ((λ node, (c, node)) <$> nodes) !! n = Some a →
  (Qabs (a.1 - c) * inject_Z (2 ^ Z.of_nat (S n)) ==
   Qabs (default c (retained own [0%N; cp]) - c))%Q.
Proof.
  revert a. induction n as [|n IH]; intros a Ha.
  - rewrite (lowpass_run_first _ _ _ _ _ Ha).
    change (inject_Z (2 ^ Z.of_nat 1)) with 2%Q. field.
  - destruct (lookup_lt_is_Some_2
                (run (lowpass cp) own ((λ node, (c, node)) <$> nodes)) n)
      as [a0 Ha0].
    { apply lookup_lt_Some in Ha. lia. }
    rewrite (lowpass_run_next _ _ _ _ _ _ _ Ha0 Ha).
    rewrite <- (IH a0 Ha0).
    replace (2 ^ Z.of_nat (S (S n)))%Z with (2 * 2 ^ Z.of_nat (S n))%Z
      by (rewrite (Nat2Z.inj_succ (S n)), Z.pow_succ_r; lia).
    rewrite inject_Z_mult. change (inject_Z 2) with 2%Q. field.
Qed.

(** C7. With the constant input [c] fed on every round and whatever value
    was stored before ([c] itself when none was), [lowpass] yields an
    output on every round; the distance of the output to [c] is half the
    distance of the stored value on the first round and half the distance of
    the previous output afterwards, so it never increases; and it tends to
    zero: for every positive [eps] there is a round from which on, whatever
    the schedule, the distance is below [eps]. *)
Theorem lowpass_converges :
  (∀ cp (c : Q) own (nodes : list node_t),
     let outs := run (lowpass cp) own ((λ node, (c, node)) <$> nodes) in
     let x0 := default c (retained own [0%N; cp]) in
     length outs = length nodes ∧
     (∀ a, outs !! 0%nat = Some a →
        (Qabs (a.1 - c) == Qabs (x0 - c) / 2)%Q) ∧
     (∀ n a b, outs !! n = Some a → outs !! S n = Some b →
        (Qabs (b.1 - c) == Qabs (a.1 - c) / 2)%Q ∧
        (Qabs (b.1 - c) <= Qabs (a.1 - c))%Q)) ∧
  (∀ cp (c : Q) own (eps : Q),
     (0 < eps)%Q →
     ∃ N : nat, ∀ (nodes : list node_t) n a,
       (N <= n)%nat →
       run (lowpass cp) own ((λ node, (c, node)) <$> nodes) !! n = Some a →
       (Qabs (a.1 - c) < eps)%Q).
Proof.
  split.
  - intros cp c own nodes outs x0. split; [|split].
    + subst outs. by rewrite run_length, length_fmap.
    + intros a. apply lowpass_run_first.
    + intros n a b Ha Hb.
      pose proof (lowpass_run_next _ _ _ _ _ _ _ Ha Hb) as Hhalf.
      split; [done|]. rewrite Hhalf.
      pose proof (Qabs_nonneg (a.1 - c)) as Hpos.
      apply Qle_shift_div_r; [done|].
      set (D := Qabs (a.1 - c)) in *. lra.
  - intros cp c own eps Heps.
    set (d := Qabs (default c (retained own [0%N; cp]) - c)).
    exists (Z.to_nat (Qceiling (d / eps))).
    intros nodes n a Hn Ha.
    pose proof (lowpass_run_closed _ _ _ _ _ _ Ha) as Hclosed.
    fold d in Hclosed.
    pose proof (Qle_ceiling (d / eps)) as Hceil.
    assert (Qceiling (d / eps) < 2 ^ Z.of_nat (S n))%Z as Hpow.
    { pose proof (Z.pow_gt_lin_r 2 (Z.of_nat (S n))). lia. }
    rewrite Zlt_Qlt in Hpow.
    assert (d == d / eps * eps)%Q as Hd by (field; lra).
    pose proof (Qabs_nonneg (a.1 - c)) as Hpos.
    set (D := Qabs (a.1 - c)) in *.
    set (P := inject_Z (2 ^ Z.of_nat (S n))) in *.
    set (K := inject_Z (Qceiling (d / eps))) in *.
    assert (d <= K * eps)%Q as HdK.
    { rewrite Hd at 1. apply Qmult_le_compat_r; lra. }
    assert (K * eps < P * eps)%Q as HKP.
    { apply Qmult_lt_compat_r; lra. }
    apply Qnot_le_lt. intros Hle.
    assert (eps * P <= D * P)%Q.
    { apply Qmult_le_compat_r; [done|].
      assert (0 <= P)%Q; [|done].
      subst P. change 0%Q with (inject_Z 0).
      rewrite <- Zle_Qle. apply Z.pow_nonneg. lia. }
    lra.
Qed.

Example lowpass_towards_zero :
  (run (lowpass 0) None
       [ (8%Q, lone_node); (0%Q, lone_node); (0%Q, lone_node) ]).*1 =
  [(16 # 2)%Q; (16 # 4)%Q; (16 # 8)%Q].
Proof. vm_compute. reflexivity. Qed.

(** ** [stable_diameter] *)

Lemma stable_diameter_round cp source node own :
  let r := round (stable_diameter cp source) node own in
  let den := (default 0 (retained own [1%N; 24%N; cp]) + 1 * delta_time node)%Q in
  retained (Some r.2) [1%N; 24%N; cp] = Some den ∧
  ∃ num : Q,
    retained (Some r.2) [1%N; 23%N; cp] = Some num ∧
    match r.1 with
    | None => (den == 0)%Q
    | Some data => ¬ (den == 0)%Q ∧ data.1 = (source, (num / den)%Q)
    end.
Proof.
  cbv beta iota zeta delta
    [round stable_diameter CODE mbind M_bind mret M_ret integrate rdist old nbr
     ask fst snd].
  change (uid (with_own node own)) with (uid node).
  change (delta_time (with_own node own)) with (delta_time node).
  rewrite !exported_with_own.
  match goal with |- context [real_div ?a ?b] =>
    generalize a; intros num; unfold real_div;
    destruct (Qeq_bool b 0) eqn:Ez end.
  - apply Qeq_bool_iff in Ez.
    cbv beta iota zeta delta [fst snd].
    rewrite retained_insert_eq.
    rewrite (retained_insert_ne _ _ [1%N; 24%N; cp]) by done.
    rewrite retained_insert_eq.
    split; [done|]. by exists num.
  - apply Qeq_bool_neq in Ez.
    cbv beta iota zeta delta
      [mbind M_bind mret M_ret lowpass maxgossip CODE old nbr ask fst snd].
    rewrite !(retained_insert_ne _ _ [7%N; 25%N; cp]) by done.
    rewrite !(retained_insert_ne _ _ [0%N; 26%N; cp]) by done.
    rewrite retained_insert_eq.
    rewrite (retained_insert_ne _ _ [1%N; 24%N; cp]) by done.
    rewrite retained_insert_eq.
    split; [done|]. by exists num.
Qed.

Lemma stable_diameter_later cp (sched : list (bool * node_t)) own (den0 : Q) :
  retained own [1%N; 24%N; cp] = Some den0 →
  (1 <= den0)%Q →
  Forall (λ round_input, later_round round_input.2) sched →
  ∀ n r, run (stable_diameter cp) own sched !! n = Some r →
    ∃ num den : Q,
      retained (Some r.2) [1%N; 23%N; cp] = Some num ∧
      retained (Some r.2) [1%N; 24%N; cp] = Some den ∧
      (1 <= den)%Q ∧
      ∃ data, r.1 = Some data ∧ data.1.2 = (num / den)%Q.
Proof.
  revert own den0.
  induction sched as [|[source node] rest IH]; intros own den0 Hown Hden Hall n r;
    [done|].
  apply Forall_cons in Hall as [[Hpos Hmono] Hrest]. cbn in Hpos, Hmono.
  destruct (stable_diameter_round cp source node own) as [Hd (num & Hn & Hres)].
  rewrite Hown in Hd, Hres. cbn [default from_option id] in Hd, Hres.
  assert (delta_time node = (current_time node - previous_time node)%Q) as Hdt.
  { unfold delta_time. apply Qltb_ge in Hpos. by rewrite Hpos. }
  rewrite Hdt in Hd, Hres.
  destruct n as [|n]; cbn [run lookup list_lookup].
  - intros [= <-]. exists num. eexists. split; [done|]. split; [done|].
    split; [lra|].
    destruct (round (stable_diameter cp source) node own).1 as [data|].
    + exists data. destruct Hres as [_ ->]. done.
    + lra.
  - eapply IH; [exact Hd|lra|done].
Qed.

(** C9. With monotone round times ([previous_time] negative on the first
    round, and [0 <= previous_time <= current_time] on every later one),
    [stable_diameter] completes every round, and in every round the value of
    [integrate(CALL, 1)], which it retains under the trace of that call, is
    at least 1: so the division that gives the time-weighted average
    distance [avgd] never has a zero denominator. *)
Theorem stable_diameter_denominator cp (sched : list (bool * node_t)) :
  monotone_times sched →
  let outs := run (stable_diameter cp) None sched in
  length outs = length sched ∧
  ∀ n r, outs !! n = Some r →
    ∃ num den : Q,
      retained (Some r.2) [1%N; 23%N; cp] = Some num ∧
      retained (Some r.2) [1%N; 24%N; cp] = Some den ∧
      (1 <= den)%Q ∧ ¬ (den == 0)%Q ∧
      ∃ data, r.1 = Some data ∧ data.1.2 = (num / den)%Q.
Proof.
  intros Hmono outs. split; [apply run_length|].
  assert (∀ n r, outs !! n = Some r →
    ∃ num den : Q,
      retained (Some r.2) [1%N; 23%N; cp] = Some num ∧
      retained (Some r.2) [1%N; 24%N; cp] = Some den ∧
      (1 <= den)%Q ∧
      ∃ data, r.1 = Some data ∧ data.1.2 = (num / den)%Q) as Hall.
  { subst outs. destruct sched as [|[source first] rest]; [done|].
    destruct Hmono as (Hneg & _ & Hrest).
    destruct (stable_diameter_round cp source first None)
      as [Hd (num & Hn & Hres)].
    cbn [retained default from_option id] in Hd, Hres.
    assert (delta_time first = 1%Q) as Hdt.
    { unfold delta_time. apply Qltb_lt in Hneg. by rewrite Hneg. }
    rewrite Hdt in Hd, Hres.
    intros [|n] r; cbn [run lookup list_lookup].
    - intros [= <-]. exists num. eexists. split; [done|]. split; [done|].
      split; [lra|].
      destruct (round (stable_diameter cp source) first None).1 as [data|].
      + exists data. destruct Hres as [_ ->]. done.
      + lra.
    - eapply stable_diameter_later; [exact Hd|lra|done]. }
  intros n r Hr.
  destruct (Hall n r Hr) as (num & den & Hn & Hd & Hle & Hdata).
  exists num, den. repeat split; try done. intros Hz. lra.
Qed.

Lemma stable_diameter_denominator_witness :
  let outs := run (stable_diameter 0) None three_rounds in
  length outs = length three_rounds ∧
  ∀ n r, outs !! n = Some r →
    ∃ num den : Q,
      retained (Some r.2) [1%N; 23%N; 0%N] = Some num ∧
      retained (Some r.2) [1%N; 24%N; 0%N] = Some den ∧
      (1 <= den)%Q ∧ ¬ (den == 0)%Q ∧
      ∃ data, r.1 = Some data ∧ data.1.2 = (num / den)%Q.
Proof.
  apply (stable_diameter_denominator 0 three_rounds).
  unfold monotone_times, three_rounds, later_round. cbn.
  repeat first [split | apply Forall_cons | apply Forall_nil]; cbn; lra.
Defined.

Example stable_diameter_denominators :
  (λ r : option (bool * Q * Q) * gmap (list N) value,
     retained (A:=Q) (Some r.2) [1%N; 24%N; 0%N])
    <$> run (stable_diameter 0) None three_rounds =
  [Some 1%Q; Some 3%Q; Some 3%Q].
Proof. vm_compute. reflexivity. Qed.

(** ** Further properties of the gossip dictionary *)

Lemma newer_origin a b :
  newer a b = a ∨ newer a b = b.
Proof.
  destruct a as [r|], b as [s|]; cbn; auto. destruct (Qltb r.1 s.1); auto.
Qed.

Lemma max_ge_l a b : (a <= max a b)%Q.
Proof. destruct (max_cases a b) as [[-> ?]|[-> ?]]; lra. Qed.

Lemma max_ge_r a b : (b <= max a b)%Q.
Proof. destruct (max_cases a b) as [[-> ?]|[-> ?]]; lra. Qed.

(** X1. Merging a dictionary with itself changes nothing, and the empty
    dictionary is neutral on both sides of [update]. *)
Theorem update_idempotent_neutral :
  (∀ x, update x x = x) ∧ (∀ y, update ∅ y = y) ∧ (∀ x, update x ∅ = x).
Proof.
  split; [|split]; intros m; apply map_eq; intros k; rewrite update_lookup.
  - destruct (m !! k) as [[t p]|]; cbn; [|done]. case_Qltb; [lra|done].
  - by rewrite lookup_empty.
  - rewrite lookup_empty. by destruct (m !! k).
Qed.

(** X2. Expiry distributes over merging: discarding the records older than
    [t] from a merged dictionary gives the same dictionary as merging the
    two dictionaries after discarding from each. *)
Theorem discard_update_distr (x y : gmap N (Q * Q)) (t : Q) :
  discard (update x y) t = update (discard x t) (discard y t).
Proof.
  apply map_eq. intros k.
  rewrite discard_lookup, !update_lookup, !discard_lookup.
  destruct (x !! k) as [[ta pa]|], (y !! k) as [[tb pb]|]; cbn; try done;
    repeat (case_Qltb; cbn in * ); try done; exfalso; lra.
Qed.

(** X3. Discarding twice is discarding once with the later of the two
    thresholds, so the order of two expiries does not matter. *)
Theorem discard_discard (m : gmap N (Q * Q)) (s t : Q) :
  discard (discard m s) t = discard m (max s t) ∧
  discard (discard m s) t = discard (discard m t) s.
Proof.
  split; apply map_eq; intros k; rewrite !discard_lookup;
    destruct (m !! k) as [[tr pr]|]; cbn; try done; unfold max;
    try (destruct (Qltb s t) eqn:Est;
         [apply Qltb_lt in Est | apply Qltb_ge in Est]);
    repeat (case_Qltb; cbn in * ); try done; exfalso; lra.
Qed.

Lemma max_value_mono (m1 m2 : gmap N (Q * Q)) :
  m1 ⊆ m2 → (max_value m1 <= max_value m2)%Q.
Proof.
  intros Hsub.
  destruct (max_value_spec m1) as (_ & _ & [->|(k & r & Hk & ->)]).
  - apply max_value_spec.
  - apply (max_value_spec m2) with k. by eapply lookup_weaken.
Qed.

Lemma discard_subseteq (m : gmap N (Q * Q)) (t : Q) : discard m t ⊆ m.
Proof.
  apply map_subseteq_spec. intros k r. rewrite discard_lookup.
  destruct (m !! k) as [r'|]; [|done]. by destruct (Qltb r'.1 t).
Qed.

(** X4. [max_value] grows with the dictionary: a dictionary included in
    another has a maximum no larger; so expiring records never raises the
    maximum, and the maximum of a merged dictionary is at most the larger
    of the maxima of the two dictionaries merged. *)
Theorem max_value_bounds :
  (∀ m1 m2 : gmap N (Q * Q), m1 ⊆ m2 → (max_value m1 <= max_value m2)%Q) ∧
  (∀ (m : gmap N (Q * Q)) t, (max_value (discard m t) <= max_value m)%Q) ∧
  (∀ x y : gmap N (Q * Q),
     (max_value (update x y) <= max (max_value x) (max_value y))%Q).
Proof.
  split; [exact max_value_mono|]. split.
  - intros m t. apply max_value_mono, discard_subseteq.
  - intros x y.
    destruct (max_value_spec (update x y)) as (_ & _ & [->|(k & r & Hk & ->)]).
    + pose proof (max_ge_l (max_value x) (max_value y)).
      destruct (max_value_spec x) as (? & _). lra.
    + rewrite update_lookup in Hk.
      destruct (newer_origin (x !! k) (y !! k)) as [Ho|Ho]; rewrite Ho in Hk.
      * destruct (max_value_spec x) as (_ & Hx & _). specialize (Hx k r Hk).
        pose proof (max_ge_l (max_value x) (max_value y)). lra.
      * destruct (max_value_spec y) as (_ & Hy & _). specialize (Hy k r Hk).
        pose proof (max_ge_r (max_value x) (max_value y)). lra.
Qed.

(** ** Further properties of [maximize] *)

Lemma maximize_fold_origin node (n : N → gmap N (Q * Q)) (loc : gmap N (Q * Q)) k r :
  default loc (fold_hood node update n) !! k = Some r →
  loc !! k = Some r ∨ ∃ j, j ∈ nbr_uid node ∧ n j !! k = Some r.
Proof.
  pose proof (fold_hood_update_latest node n) as Hfold.
  destruct (fold_hood node update n) as [x|]; cbn; [|by left].
  intros Hk. specialize (Hfold k). rewrite Hk in Hfold.
  destruct Hfold as [(m & (j & -> & Hj)%list_elem_of_fmap & Hm) _].
  right. by exists j.
Qed.

(** X5. The dictionary [maximize] exports holds only fresh records that were
    received or are the device's own: every record in it has a timestamp not
    older than [current_time - threshold], and is either the record
    [(current_time, v)] under the device's own key or the record some
    neighbour's dictionary holds under the same key; the value returned is
    [max_value] of that dictionary. *)
Theorem maximize_exports_fresh cp v threshold node stack e :
  let loc : gmap N (Q * Q) := {[ uid node := (current_time node, v) ]} in
  let t := 5%N :: cp :: stack in
  let n := λ d, default loc (exported node d t) in
  let res := maximize cp v threshold node stack e in
  ∃ glob : gmap N (Q * Q),
    res.2 !! t = Some (VDict glob) ∧
    res.1 = max_value glob ∧
    ∀ k r, glob !! k = Some r →
      (current_time node - threshold <= r.1)%Q ∧
      ((k = uid node ∧ r = (current_time node, v)) ∨
       ∃ j, j ∈ nbr_uid node ∧ n j !! k = Some r).
Proof.
  intros loc t n res. subst res. rewrite maximize_unfold. cbn zeta.
  fold loc. fold t. fold n. eexists. split; [apply lookup_insert_eq|].
  split; [reflexivity|]. intros k r. rewrite discard_lookup, update_lookup.
  destruct (newer _ _) as [r'|] eqn:Hnew; [|done].
  destruct (Qltb r'.1 _) eqn:Hfresh; [done|]. intros [= ->].
  apply Qltb_ge in Hfresh. split; [done|].
  assert (loc !! k = Some r ∨ ∃ j, j ∈ nbr_uid node ∧ n j !! k = Some r)
    as [Hloc|Hnb].
  { destruct (newer_origin (default loc (fold_hood node update n) !! k)
                           (loc !! k)) as [Ho|Ho];
      rewrite Ho in Hnew; [by apply maximize_fold_origin|by left]. }
  - left. subst loc. by apply lookup_singleton_Some in Hloc as [<- <-].
  - by right.
Qed.

Lemma maximize_keeps_local cp v threshold node stack e :
  (0 <= threshold)%Q →
  (∀ j r, j ∈ nbr_uid node →
     default {[ uid node := (current_time node, v) ]}
             (exported node j (5%N :: cp :: stack)) !! uid node = Some r →
     (r.1 < current_time node)%Q ∨ r = (current_time node, v)) →
  let res := maximize cp v threshold node stack e in
  ∃ glob : gmap N (Q * Q),
    res.2 !! (5%N :: cp :: stack) = Some (VDict glob) ∧
    glob !! uid node = Some (current_time node, v) ∧
    (v <= res.1)%Q.
Proof.
  intros Hthr Hold res. subst res. rewrite maximize_unfold. cbn zeta.
  set (loc := {[ uid node := (current_time node, v) ]} : gmap N (Q * Q)) in *.
  set (t := 5%N :: cp :: stack) in *.
  set (n := λ d, default loc (exported node d t)) in *.
  eexists. split; [apply lookup_insert_eq|].
  match goal with |- ?g !! _ = _ ∧ _ =>
    assert (g !! uid node = Some (current_time node, v)) as Hown end.
  { rewrite discard_lookup, update_lookup.
    assert (loc !! uid node = Some (current_time node, v)) as Hloc
      by apply lookup_singleton_eq.
    assert (newer (default loc (fold_hood node update n) !! uid node)
                  (loc !! uid node) = Some (current_time node, v)) as ->.
    { rewrite Hloc.
      destruct (default loc (fold_hood node update n) !! uid node)
        as [r|] eqn:Hr; [|done].
      apply maximize_fold_origin in Hr as [Hr|(j & Hj & Hr)].
      - rewrite Hloc in Hr. injection Hr as <-. cbn. case_Qltb; [lra|done].
      - destruct (Hold j r Hj Hr) as [Hlt| ->]; cbn.
        + apply Qltb_lt in Hlt. by rewrite Hlt.
        + case_Qltb; [lra|done]. }
    cbn. case_Qltb; [lra|done]. }
  split; [exact Hown|].
  cbn [fst]. match goal with |- (_ <= max_value ?g)%Q =>
    destruct (max_value_spec g) as (_ & Hub & _) end.
  apply (Hub _ _ Hown).
Qed.

(** X6. With a threshold that is not negative, and when the dictionaries
    received hold under the device's own key only records older than
    [current_time] (or the current record itself), [maximize] exports the
    record [(current_time, v)] under the device's own key and returns at
    least the local value [v]. *)
Theorem maximize_at_least_local cp v threshold node stack e :
  (0 <= threshold)%Q →
  (∀ j r, j ∈ nbr_uid node →
     default {[ uid node := (current_time node, v) ]}
             (exported node j (5%N :: cp :: stack)) !! uid node = Some r →
     (r.1 < current_time node)%Q ∨ r = (current_time node, v)) →
  let res := maximize cp v threshold node stack e in
  ∃ glob : gmap N (Q * Q),
    res.2 !! (5%N :: cp :: stack) = Some (VDict glob) ∧
    glob !! uid node = Some (current_time node, v) ∧
    (v <= res.1)%Q.
Proof. apply maximize_keeps_local. Qed.

Lemma maximize_at_least_local_witness :
  let res := maximize 21 5 3 gossip_node [] ∅ in
  ∃ glob : gmap N (Q * Q),
    res.2 !! [5%N; 21%N] = Some (VDict glob) ∧
    glob !! 1%N = Some (10%Q, 5%Q) ∧
    (5 <= res.1)%Q.
Proof.
  apply (maximize_at_least_local 21 5 3 gossip_node [] ∅).
  - lra.
  - intros j r Hj. cbn in Hj.
    repeat (apply elem_of_cons in Hj as [->|Hj]);
      [vm_compute; intros [= <-]; left; reflexivity..|].
    by apply elem_of_nil in Hj.
Defined.

Example maximize_gossip_round :
  (maximize 21 5 3 gossip_node [] ∅).1 = 5%Q ∧
  (maximize 21 5 3 gossip_node [] ∅).2 !! [5%N; 21%N] =
    Some (VDict {[ 1%N := (10%Q, 5%Q); 2%N := (9%Q, 4%Q) ]}).
Proof. split; vm_compute; reflexivity. Qed.

(** ** Further properties of [lowpass], [integrate] and [accumulate] *)

Lemma retained_insert_real e t (x : Q) :
  retained (Some (<[t := VReal x]> e)) t = Some x.
Proof. exact (retained_insert_eq e t x). Qed.

(** X7. The output of [lowpass] never overshoots: it lies between the value
    retained and the input, and on the first visit of the call site, where
    nothing is retained, it is the input itself. *)
Theorem lowpass_between cp v node own :
  let x := default v (retained own [0%N; cp]) in
  let out := (round (lowpass cp v) node own).1 in
  ((x <= v)%Q → (x <= out)%Q ∧ (out <= v)%Q) ∧
  ((v <= x)%Q → (v <= out)%Q ∧ (out <= x)%Q) ∧
  (retained (A:=Q) own [0%N; cp] = None → (out == v)%Q).
Proof.
  intros x out. subst out. rewrite lowpass_round. cbn zeta. cbn [fst].
  fold x. split; [|split].
  - intros Hle. split; [apply Qle_shift_div_l|apply Qle_shift_div_r]; lra.
  - intros Hle. split; [apply Qle_shift_div_l|apply Qle_shift_div_r]; lra.
  - intros Hnone. subst x. rewrite Hnone. cbn [default from_option id]. field.
Qed.

Lemma integrate_linear_from cp (c : Q) (nodes : list node_t) own1 own2 :
  (default 0 (retained own1 [1%N; cp]) ==
   c * default 0 (retained own2 [1%N; cp]))%Q →
  Forall2 (λ a b, (a.1 == c * b.1)%Q)
          (run (integrate cp) own1 ((λ node, (c, node)) <$> nodes))
          (run (integrate cp) own2 ((λ node, (1%Q, node)) <$> nodes)).
Proof.
  revert own1 own2.
  induction nodes as [|node nodes IH]; intros own1 own2 Hown; [constructor|].
  cbn [fmap list_fmap run]. rewrite !integrate_round. cbn zeta.
  constructor.
  - cbn [fst]. rewrite Hown. ring.
  - apply IH. cbn [snd]. rewrite !retained_insert_real.
    cbn [default from_option id]. rewrite Hown. ring.
Qed.

(** X8. [integrate] is linear in a constant input: fed the constant [c] on
    every round from the first visit on, it returns on every round [c]
    times what it returns when fed the constant 1 on the same rounds. *)
Theorem integrate_constant_linear cp (c : Q) (nodes : list node_t) :
  Forall2 (λ a b, (a.1 == c * b.1)%Q)
          (run (integrate cp) None ((λ node, (c, node)) <$> nodes))
          (run (integrate cp) None ((λ node, (1%Q, node)) <$> nodes)).
Proof. apply integrate_linear_from. cbn. ring. Qed.

Lemma integrate_elapsed_from cp (t0 : Q) (nodes : list node_t) own (t acc : Q) :
  retained own [1%N; cp] = Some acc →
  (acc == 1 + (t - t0))%Q →
  chained t nodes →
  ∀ n a node,
    run (integrate cp) own ((λ node, (1%Q, node)) <$> nodes) !! n = Some a →
    nodes !! n = Some node →
    (a.1 == 1 + (current_time node - t0))%Q.
Proof.
  revert own t acc.
  induction nodes as [|first rest IH]; intros own t acc Hown Hacc Hch n a node;
    [done|].
  destruct Hch as (Hprev & Hpos & Hrest).
  cbn [fmap list_fmap run]. rewrite integrate_round. cbn zeta.
  rewrite Hown. cbn [default from_option id].
  assert (delta_time first == current_time first - t)%Q as Hdt.
  { unfold delta_time.
    destruct (Qltb (previous_time first) 0) eqn:E.
    - apply Qltb_lt in E. lra.
    - rewrite Hprev. reflexivity. }
  destruct n as [|n]; cbn [lookup list_lookup].
  - intros [= <-] [= <-]. cbn [fst]. rewrite Hdt, Hacc. ring.
  - cbn [snd]. eapply IH; [apply retained_insert_real| |exact Hrest].
    rewrite Hdt, Hacc. ring.
Qed.

(** X9. Fed the constant 1 from the device's first round on, over rounds
    that follow one another, [integrate] returns in every round the time
    elapsed since the first round, plus 1. *)
Theorem integrate_elapsed cp (first : node_t) (rest : list node_t) :
  (previous_time first < 0)%Q →
  chained (current_time first) rest →
  let outs := run (integrate cp) None ((λ node, (1%Q, node)) <$> first :: rest) in
  length outs = S (length rest) ∧
  ∀ n a node,
    outs !! n = Some a →
    (first :: rest) !! n = Some node →
    (a.1 == 1 + (current_time node - current_time first))%Q.
Proof.
  intros Hneg Hch outs. subst outs.
  split; [by rewrite run_length, length_fmap|]. intros n a node.
  cbn [fmap list_fmap run]. rewrite integrate_round. cbn zeta.
  assert (delta_time first = 1%Q) as Hdt.
  { unfold delta_time. apply Qltb_lt in Hneg. by rewrite Hneg. }
  rewrite Hdt. cbn [retained default from_option id].
  destruct n as [|n]; cbn [lookup list_lookup].
  - intros [= <-] [= <-]. cbn [fst]. ring.
  - cbn [snd].
    eapply (integrate_elapsed_from cp (current_time first) rest _
              (current_time first)); [apply retained_insert_real|ring|done].
Qed.

Lemma integrate_elapsed_witness :
  let outs :=
    run (integrate 0) None ((λ node, (1%Q, node)) <$> lone_node :: later_rounds) in
  length outs = S (length later_rounds) ∧
  ∀ n a node,
    outs !! n = Some a →
    (lone_node :: later_rounds) !! n = Some node →
    (a.1 == 1 + (current_time node - current_time lone_node))%Q.
Proof.
  apply (integrate_elapsed 0 lone_node later_rounds).
  - cbn. lra.
  - cbn. repeat split; lra.
Defined.

Example integrate_elapsed_times :
  (run (integrate 0) None ((λ node, (1%Q, node)) <$> lone_node :: later_rounds)).*1
  = [1%Q; 3%Q; 6%Q].
Proof. vm_compute. reflexivity. Qed.

Lemma accumulate_round cp v node own :
  round (accumulate cp v) node own =
  let x := (default 0 (retained own [2%N; cp]) + v)%Q in
  (x, <[ [2%N; cp] := VReal x ]> ∅).
Proof.
  unfold round, accumulate, CODE, old. cbn.
  change (uid (with_own node own)) with (uid node).
  by rewrite !exported_with_own.
Qed.

Lemma accumulate_from cp (sched : list (Q * node_t)) own :
  (run (accumulate cp) own sched).*1 =
  prefix_sums (default 0%Q (retained own [2%N; cp])) sched.*1.
Proof.
  revert own. induction sched as [|[v node] rest IH]; intros own; [done|].
  cbn [run fmap list_fmap prefix_sums fst]. rewrite accumulate_round.
  cbn zeta. cbn [fst snd]. f_equal.
  rewrite IH. by rewrite retained_insert_real.
Qed.

(** X10. From the first visit on, [accumulate] returns the running sum of
    its inputs, whatever the round times and whatever the neighbours
    exported. *)
Theorem accumulate_running_sum cp (sched : list (Q * node_t)) :
  (run (accumulate cp) None sched).*1 = prefix_sums 0%Q sched.*1.
Proof. apply accumulate_from. Qed.

(** ** Further properties of [maxgossip] *)

Lemma foldl_max_spec (n : N → Q) (ds : list N) (acc : Q) :
  let x := foldl (λ res j, max (n j) res) acc ds in
  (acc <= x)%Q ∧ (∀ j, j ∈ ds → (n j <= x)%Q) ∧
  (x = acc ∨ ∃ j, j ∈ ds ∧ x = n j).
Proof.
  revert acc. induction ds as [|d ds IH]; intros acc; cbn.
  - split; [lra|]. split; [|by left]. by intros j Hj%elem_of_nil.
  - destruct (IH (max (n d) acc)) as (Hacc & Hall & Hfrom).
    pose proof (max_ge_l (n d) acc). pose proof (max_ge_r (n d) acc).
    split; [lra|]. split.
    + intros j [->|Hj]%elem_of_cons; [lra|by apply Hall].
    + destruct Hfrom as [Heq|(j & Hj & Heq)].
      * rewrite Heq. destruct (max_cases (n d) acc) as [[-> _]|[-> _]].
        -- right. exists d. split; [by left|done].
        -- by left.
      * right. exists j. split; [by right|done].
Qed.

Lemma maxgossip_unfold cp v node stack e :
  maxgossip cp v node stack e =
  let t := 7%N :: cp :: stack in
  let n := λ d, default v (exported node d t) in
  let r := max (default v (fold_hood node max n)) v in
  (r, <[t := VReal r]> e).
Proof. reflexivity. Qed.

Lemma maxgossip_spec cp v node stack e :
  let n := λ d, default v (exported node d (7%N :: cp :: stack)) in
  let r := (maxgossip cp v node stack e).1 in
  (v <= r)%Q ∧
  (∀ j, j ∈ nbr_uid node → (n j <= r)%Q) ∧
  (r = v ∨ ∃ j, j ∈ nbr_uid node ∧ r = n j).
Proof.
  intros n r. subst r. rewrite maxgossip_unfold. cbn zeta. cbn [fst]. fold n.
  unfold fold_hood. destruct (nbr_uid node) as [|d ds]; cbn [default from_option id].
  - pose proof (max_ge_r v v). split; [done|]. split.
    + by intros j Hj%elem_of_nil.
    + left. by destruct (max_cases v v) as [[-> _]|[-> _]].
  - destruct (foldl_max_spec n ds (n d)) as (Hacc & Hall & Hfrom).
    set (x := foldl (λ res j, max (n j) res) (n d) ds) in *.
    pose proof (max_ge_l x v). pose proof (max_ge_r x v).
    split; [done|]. split.
    + intros j [->|Hj]%elem_of_cons; [lra|].
      specialize (Hall j Hj). lra.
    + destruct (max_cases x v) as [[-> _]|[-> _]]; [|by left].
      right. destruct Hfrom as [->|(j & Hj & ->)].
      * exists d. split; [by left|done].
      * exists j. split; [by right|done].
Qed.

(** X11. [maxgossip] returns at least its input and at least every value
    of the neighbourhood field, the device's own previous value included;
    and what it returns is its input or one of those values. *)
Theorem maxgossip_bounds cp v node stack e :
  let n := λ d, default v (exported node d (7%N :: cp :: stack)) in
  let r := (maxgossip cp v node stack e).1 in
  (v <= r)%Q ∧
  (∀ j, j ∈ nbr_uid node → (n j <= r)%Q) ∧
  (r = v ∨ ∃ j, j ∈ nbr_uid node ∧ r = n j).
Proof. apply maxgossip_spec. Qed.

(** X12. As long as the device is in its own neighbourhood, [maxgossip]
    never decreases from one round to the next, whatever its inputs are. *)
Theorem maxgossip_never_decreases cp (sched : list (Q * node_t)) own :
  Forall (λ round_input, uid round_input.2 ∈ nbr_uid round_input.2) sched →
  let outs := run (maxgossip cp) own sched in
  length outs = length sched ∧
  ∀ n a b, outs !! n = Some a → outs !! S n = Some b → (a.1 <= b.1)%Q.
Proof.
  intros Hself outs. subst outs. split; [apply run_length|].
  intros n a b Ha Hb.
  destruct (run_lookup_round _ _ _ _ _ Hb) as (v & node & own' & Hs & _).
  rewrite (run_step _ _ _ _ _ _ _ Ha Hs) in Hb. injection Hb as <-.
  assert (retained (Some a.2) [7%N; cp] = Some a.1) as Hslot.
  { destruct (run_lookup_round _ _ _ _ _ Ha) as (v0 & node0 & own0 & _ & ->).
    unfold round. rewrite maxgossip_unfold. cbn zeta. cbn [fst snd].
    apply retained_insert_real. }
  rewrite Forall_lookup in Hself. specialize (Hself _ _ Hs). cbn in Hself.
  unfold round.
  destruct (maxgossip_spec cp v (with_own node (Some a.2)) [] ∅)
    as (_ & Hall & _).
  specialize (Hall (uid node) Hself). cbn beta in Hall.
  rewrite exported_with_own, Hslot in Hall. exact Hall.
Qed.

Lemma maxgossip_never_decreases_witness :
  let outs := run (maxgossip 0) None input_rounds in
  length outs = length input_rounds ∧
  ∀ n a b, outs !! n = Some a → outs !! S n = Some b → (a.1 <= b.1)%Q.
Proof.
  apply (maxgossip_never_decreases 0 input_rounds None).
  unfold input_rounds, later_rounds. cbn.
  repeat constructor.
Defined.

Example maxgossip_keeps_maximum :
  (run (maxgossip 0) None input_rounds).*1 = [3%Q; 3%Q; 3%Q].
Proof. vm_compute. reflexivity. Qed.

(** ** Further properties of [rdist] and [dist] *)

Lemma ele_refl a : ele a a.
Proof.
  unfold ele. destruct a as [p|]; cbn; [|done]. apply Qltb_ge. lra.
Qed.

Lemma ele_trans a b c : ele a b → ele b c → ele a c.
Proof.
  unfold ele. destruct a as [p|], b as [q|], c as [r|]; cbn; try done.
  rewrite !Qltb_ge. lra.
Qed.

Lemma emin_spec a b :
  ele (emin a b) a ∧ ele (emin a b) b ∧ (emin a b = a ∨ emin a b = b).
Proof.
  unfold emin. destruct (eltb b a) eqn:E.
  - split; [|split; [apply ele_refl|by right]].
    unfold ele. destruct a as [p|], b as [q|]; cbn in *; try done.
    apply Qltb_lt in E. apply Qltb_ge. lra.
  - split; [apply ele_refl|]. split; [done|by left].
Qed.

Lemma fold_hood_self_emin (node : node_t) (f : N → ereal) (b : ereal) :
  let x := fold_hood_self node emin f b in
  ele x b ∧
  (∀ j, j ∈ nbr_uid node → j ≠ uid node → ele x (f j)) ∧
  (x = b ∨ ∃ j, j ∈ nbr_uid node ∧ j ≠ uid node ∧ x = f j).
Proof.
  unfold fold_hood_self. generalize (nbr_uid node). intros l. revert b.
  induction l as [|d l IH]; intros b; cbn.
  - split; [apply ele_refl|]. split; [|by left]. by intros j Hj%elem_of_nil.
  - destruct (N.eqb_spec d (uid node)) as [->|Hne].
    + destruct (IH b) as (Hb & Hall & Hfrom). split; [done|]. split.
      * intros j [->|Hj]%elem_of_cons Hj'; [done|by apply Hall].
      * destruct Hfrom as [->|(j & Hj & Hj' & ->)]; [by left|].
        right. exists j. split; [by right|done].
    + destruct (IH (emin (f d) b)) as (Hb & Hall & Hfrom).
      destruct (emin_spec (f d) b) as (Hl & Hr & Hor).
      split; [by eapply ele_trans|]. split.
      * intros j [->|Hj]%elem_of_cons Hj'; [by eapply ele_trans|by apply Hall].
      * destruct Hfrom as [Heq|(j & Hj & Hj' & Heq)].
        -- rewrite Heq. destruct Hor as [->| ->]; [|by left].
           right. exists d. split; [by left|done].
        -- right. exists j. split; [by right|done].
Qed.

(** X13. [rdist] is [Fin 0] on a source.  Elsewhere it is at most the
    estimate of every other device of the neighbourhood plus the distance
    to it, and it is [INF] or exactly one of these sums; so a device that is
    no source and has no other device in its neighbourhood gets [INF]. *)
Theorem rdist_closest_neighbour cp source node stack e :
  let d := λ j, default INF (exported node j (3%N :: cp :: stack)) in
  let through := λ j, eadd (d j) (Fin (nbr_dist node j)) in
  let r := (rdist cp source node stack e).1 in
  (source = true → r = Fin 0) ∧
  (source = false →
     (∀ j, j ∈ nbr_uid node → j ≠ uid node → ele r (through j)) ∧
     (r = INF ∨ ∃ j, j ∈ nbr_uid node ∧ j ≠ uid node ∧ r = through j) ∧
     ((∀ j, j ∈ nbr_uid node → j = uid node) → r = INF)).
Proof.
  intros d through r. split; [by intros ->|]. intros ->.
  assert (r = fold_hood_self node emin through INF) as -> by reflexivity.
  destruct (fold_hood_self_emin node through INF) as (_ & Hall & Hfrom).
  split; [done|]. split; [done|].
  intros Halone. destruct Hfrom as [->|(j & Hj & Hj' & _)]; [done|].
  by destruct Hj'; apply Halone.
Qed.

Lemma exported_with_own_ne {A} `{Exportable A} node own j t :
  j ≠ uid node → exported (A:=A) (with_own node own) j t = exported node j t.
Proof.
  intros Hne. unfold exported, with_own. cbn.
  destruct own as [e|]; [by rewrite lookup_insert_ne|by rewrite lookup_delete_ne].
Qed.

Lemma fold_hood_self_ext {A} (node node' : node_t) (op : A → A → A)
    (f g : N → A) (b : A) :
  uid node = uid node' → nbr_uid node = nbr_uid node' →
  (∀ j, j ≠ uid node → f j = g j) →
  fold_hood_self node op f b = fold_hood_self node' op g b.
Proof.
  intros Huid Hnbr Hext. unfold fold_hood_self. rewrite <- Huid, <- Hnbr.
  generalize (nbr_uid node). intros l. revert b.
  induction l as [|d l IH]; intros b; cbn; [done|].
  destruct (N.eqb_spec d (uid node)) as [->|Hne]; [apply IH|].
  rewrite (Hext d Hne). apply IH.
Qed.

(** X14. [dist] and [rdist] never read the device's own previous estimate:
    whatever the device retained from its previous round, the result of the
    round is the same. *)
Theorem dist_rdist_ignore_own bits cp source node own1 own2 :
  (round (dist bits cp source) node own1).1 =
  (round (dist bits cp source) node own2).1 ∧
  (round (rdist cp source) node own1).1 =
  (round (rdist cp source) node own2).1.
Proof.
  split.
  - unfold round, dist, CODE, nbr, ask, mbind, M_bind. cbn [fst].
    do 3 f_equal. apply fold_hood_self_ext; [done..|].
    intros j Hj. cbn in Hj. by rewrite !exported_with_own_ne.
  - unfold round, rdist, CODE, nbr, ask, mbind, M_bind. cbn [fst].
    f_equal. apply fold_hood_self_ext; [done..|].
    intros j Hj. cbn in Hj. by rewrite !exported_with_own_ne.
Qed.

(** ** [minintegral] *)

Lemma eltb_ele_trans a b c : eltb a b = true → ele b c → eltb a c = true.
Proof.
  unfold ele. destruct a as [p|], b as [q|], c as [r|]; cbn; try done.
  rewrite !Qltb_lt, Qltb_ge. lra.
Qed.

(** X15. [minintegral] holds exactly when the integral of the round is
    strictly below the integral every other device of the neighbourhood
    last exported (a device that exported none counts with the device's own
    integral); in particular it holds when the device has no other device
    in its neighbourhood. *)
Theorem minintegral_strict_minimum cp v node stack e :
  let i := (default 0 (exported node (uid node) (1%N :: 14%N :: cp :: stack))
            + v * delta_time node)%Q in
  let n := λ j, default i (exported node j (16%N :: cp :: stack)) in
  let holds := (minintegral cp v node stack e).1 in
  (holds = true ↔ ∀ j, j ∈ nbr_uid node → j ≠ uid node → (i < n j)%Q) ∧
  ((∀ j, j ∈ nbr_uid node → j = uid node) → holds = true).
Proof.
  intros i n holds.
  set (f := λ j, Fin (if N.eqb j (uid node) then i else n j)).
  assert (holds = eltb (Fin i) (fold_hood_self node emin f INF)) as ->
    by reflexivity.
  destruct (fold_hood_self_emin node f INF) as (_ & Hall & Hfrom).
  assert (∀ j, j ≠ uid node → f j = Fin (n j)) as Hf.
  { intros j Hj. unfold f. by destruct (N.eqb_spec j (uid node)). }
  assert (eltb (Fin i) (fold_hood_self node emin f INF) = true ↔
          ∀ j, j ∈ nbr_uid node → j ≠ uid node → (i < n j)%Q) as Hiff.
  { split.
    - intros Hlt j Hj Hne. apply Qltb_lt.
      specialize (Hall j Hj Hne). rewrite (Hf j Hne) in Hall.
      apply (eltb_ele_trans _ _ _ Hlt Hall).
    - intros Hbelow. destruct Hfrom as [->|(j & Hj & Hne & ->)]; [done|].
      rewrite (Hf j Hne). cbn. apply Qltb_lt. by apply Hbelow. }
  split; [exact Hiff|].
  intros Halone. apply Hiff. intros j Hj Hne. by destruct Hne; apply Halone.
Qed.

(** ** [sharedcount] *)

Lemma foldl_Zmax_spec (n : N → Z) (ds : list N) (acc : Z) :
  let x := foldl (λ res j, Z.max (n j) res) acc ds in
  (acc <= x)%Z ∧ (∀ j, j ∈ ds → (n j <= x)%Z) ∧
  (x = acc ∨ ∃ j, j ∈ ds ∧ x = n j).
Proof.
  revert acc. induction ds as [|d ds IH]; intros acc; cbn.
  - split; [lia|]. split; [|by left]. by intros j Hj%elem_of_nil.
  - destruct (IH (Z.max (n d) acc)) as (Hacc & Hall & Hfrom).
    split; [lia|]. split.
    + intros j [->|Hj]%elem_of_cons; [lia|by apply Hall].
    + destruct Hfrom as [Heq|(j & Hj & Heq)].
      * rewrite Heq. destruct (Z.max_spec (n d) acc) as [[_ ->]|[_ ->]].
        -- by left.
        -- right. exists d. split; [by left|done].
      * right. exists j. split; [by right|done].
Qed.

Lemma to_int_id bits z : (0 < bits)%Z → is_int bits z → to_int bits z = z.
Proof.
  unfold is_int, to_int, int_limit. intros Hb Hz.
  assert (2 ^ bits = 2 * 2 ^ (bits - 1))%Z as ->.
  { rewrite <- Z.pow_succ_r by lia. f_equal. lia. }
  rewrite Z.mod_small; lia.
Qed.

(** X16. On a field of [int] values below the maximum of [int],
    [sharedcount] returns one more than the largest value of the field
    without wrapping, hence a value strictly above every value of the
    field, the device's own previous count included. *)
Theorem sharedcount_exceeds_field bits cp node stack e :
  (1 < bits)%Z →
  (∀ j, j ∈ nbr_uid node →
     is_int bits (default 0%Z (exported node j (17%N :: cp :: stack))) ∧
     (default 0%Z (exported node j (17%N :: cp :: stack)) < int_limit bits)%Z) →
  let n := λ j, default 0%Z (exported node j (17%N :: cp :: stack)) in
  let r := (sharedcount bits cp node stack e).1 in
  r = (default 0 (fold_hood node Z.max n) + 1)%Z ∧
  (∀ j, j ∈ nbr_uid node → (n j < r)%Z) ∧
  is_int bits r.
Proof.
  intros Hb Hfield n r.
  assert (1 < 2 ^ (bits - 1))%Z as Hpow.
  { apply Z.pow_gt_1; lia. }
  assert (is_int bits (default 0 (fold_hood node Z.max n) + 1)%Z ∧
          ∀ j, j ∈ nbr_uid node →
               (n j < default 0 (fold_hood node Z.max n) + 1)%Z) as [Hin Hall].
  { unfold fold_hood. destruct (nbr_uid node) as [|d ds] eqn:Hnbr;
      cbn [default from_option id].
    - split; [unfold is_int, int_limit; lia|]. by intros j Hj%elem_of_nil.
    - destruct (foldl_Zmax_spec n ds (n d)) as (Hacc & Hds & Hfrom).
      set (x := foldl (λ res j, Z.max (n j) res) (n d) ds) in *.
      assert (∃ j, j ∈ d :: ds ∧ x = n j) as (j0 & Hj0 & Hx).
      { destruct Hfrom as [->|(j & Hj & ->)].
        - exists d. split; [by left|done].
        - exists j. split; [by right|done]. }
      destruct (Hfield j0 Hj0) as [Hr0 Hlt0]. fold (n j0) in Hr0, Hlt0.
      split.
      + unfold is_int, int_limit in *. lia.
      + intros j [->|Hj]%elem_of_cons; [lia|]. specialize (Hds j Hj). lia. }
  assert (r = (default 0 (fold_hood node Z.max n) + 1)%Z) as Hr.
  { subst r. unfold sharedcount, CODE, nbr, ask, mbind, M_bind. cbn [fst].
    apply to_int_id; [lia|done]. }
  rewrite Hr. done.
Qed.

Lemma sharedcount_exceeds_field_witness :
  let n := λ j, default 0%Z (exported counter_node j [17%N; 0%N]) in
  let r := (sharedcount 32 0 counter_node [] ∅).1 in
  r = (default 0 (fold_hood counter_node Z.max n) + 1)%Z ∧
  (∀ j, j ∈ nbr_uid counter_node → (n j < r)%Z) ∧
  is_int 32 r.
Proof.
  apply (sharedcount_exceeds_field 32 0 counter_node [] ∅).
  - lia.
  - intros j Hj. cbn in Hj.
    repeat (apply elem_of_cons in Hj as [->|Hj]);
      [vm_compute; repeat split; discriminate..|].
    by apply elem_of_nil in Hj.
Defined.

Example sharedcount_next :
  (sharedcount 32 0 counter_node [] ∅).1 = 7%Z.
Proof. reflexivity. Qed.

(** ** [hop_diameter] *)

Lemma dist_value bits cp source node stack e :
  (0 < bits)%Z →
  (∀ j, j ∈ nbr_uid node →
     is_hops bits (default (HOPS_MAX bits) (exported node j (9%N :: cp :: stack)))) →
  let d := (dist bits cp source node stack e).1 in
  (source = true → d = 0%Z) ∧ (d <= hops_limit bits)%Z.
Proof.
  intros Hb Hfield d.
  set (f := λ j, default (HOPS_MAX bits) (exported node j (9%N :: cp :: stack))).
  destruct (fold_hood_self_min node f (HOPS_MAX bits)) as [Hle Hcases].
  assert (0 < 2 ^ (bits - 1))%Z as Hpow by (apply Z.pow_pos_nonneg; lia).
  assert (d = to_hops bits
                (mux source 0 (fold_hood_self node Z.min f (HOPS_MAX bits) + 1))%Z)
    as Hd by reflexivity.
  rewrite to_hops_id in Hd; [|lia|].
  - rewrite Hd. unfold mux. split; [by intros ->|].
    destruct source; unfold HOPS_MAX, hops_limit in *; lia.
  - unfold mux. destruct source.
    + unfold is_hops, hops_limit. lia.
    + destruct Hcases as [Heq|(j & Hj & Heq)]; rewrite Heq.
      * unfold is_hops, HOPS_MAX, hops_limit. lia.
      * rewrite Heq in Hle. specialize (Hfield j Hj). fold (f j) in Hfield.
        unfold is_hops, HOPS_MAX, hops_limit in *. lia.
Qed.

(** X17. Whatever the leader election answers, on a field of [hops_t]
    values, with a threshold that is not negative and when the dictionaries
    received hold under the device's own key only records older than
    [current_time], [hop_diameter] reports a distance that is 0 when the
    device is the leader and never above the maximum of [hops_t], and a
    diameter that is not negative and not below the device's own distance. *)
Theorem hop_diameter_sound (wave_election : N → M N) bits cp threshold
    node stack e :
  (0 < bits)%Z →
  (0 <= threshold)%Q →
  (∀ j, j ∈ nbr_uid node →
     is_hops bits (default (HOPS_MAX bits)
                           (exported node j (9%N :: 20%N :: cp :: stack)))) →
  (∀ j (m : gmap N (Q * Q)) r, j ∈ nbr_uid node →
     exported node j (5%N :: 21%N :: cp :: stack) = Some m →
     m !! uid node = Some r → (r.1 < current_time node)%Q) →
  let res := (hop_diameter wave_election bits cp threshold node stack e).1 in
  (res.1.1 = true → res.1.2 = 0%Q) ∧
  (res.1.2 <= inject_Z (hops_limit bits))%Q ∧
  (res.1.2 <= res.2)%Q ∧
  (0 <= res.2)%Q.
Proof.
  intros Hb Hthr Hfield Hold res. subst res.
  unfold hop_diameter, election, CODE, ask, mbind, M_bind, mret, M_ret.
  destruct (wave_election 11%N node (19%N :: cp :: stack) e) as [leader e1].
  set (source := N.eqb leader (uid node)).
  destruct (dist_value bits 20 source node (cp :: stack) e1 Hb Hfield)
    as [Hsrc Hlim].
  destruct (dist bits 20 source node (cp :: stack) e1) as [d e2].
  cbn [fst] in Hsrc, Hlim.
  destruct (maximize_keeps_local 21 (inject_Z d) threshold node (cp :: stack) e2
              Hthr) as (glob & _ & _ & Hge).
  { intros j r Hj.
    destruct (exported node j (5%N :: 21%N :: cp :: stack)) as [m|] eqn:Hm;
      cbn [default from_option id].
    - intros Hr. left. by apply (Hold j m r).
    - intros [_ <-]%lookup_singleton_Some. by right. }
  pose proof (max_value_spec) as Hmax.
  assert (0 <= (maximize 21 (inject_Z d) threshold node (cp :: stack) e2).1)%Q
    as Hpos by (rewrite maximize_unfold; apply max_value_spec).
  destruct (maximize 21 (inject_Z d) threshold node (cp :: stack) e2)
    as [diam e3].
  cbn [fst snd] in *. split; [|split; [|split]]; try done.
  - intros Hs. by rewrite (Hsrc Hs).
  - by rewrite <- Zle_Qle.
Qed.

Lemma hop_diameter_sound_witness :
  let res := (hop_diameter (λ _, mret 2%N) 16 0 3 diameter_node [] ∅).1 in
  (res.1.1 = true → res.1.2 = 0%Q) ∧
  (res.1.2 <= inject_Z (hops_limit 16))%Q ∧
  (res.1.2 <= res.2)%Q ∧
  (0 <= res.2)%Q.
Proof.
  apply (hop_diameter_sound (λ _, mret 2%N) 16 0 3 diameter_node [] ∅).
  - lia.
  - lra.
  - intros j Hj. cbn in Hj.
    repeat (apply elem_of_cons in Hj as [->|Hj]);
      [vm_compute; split; discriminate..|].
    by apply elem_of_nil in Hj.
  - intros j m r Hj. cbn in Hj.
    repeat (apply elem_of_cons in Hj as [->|Hj]).
    + vm_compute. discriminate.
    + vm_compute. intros [= <-]. vm_compute. intros [= <-]. reflexivity.
    + by apply elem_of_nil in Hj.
Defined.

Example hop_diameter_round :
  (hop_diameter (λ _, mret 2%N) 16 0 3 diameter_node [] ∅).1 =
  (false, 4%Q, 4%Q).
Proof. vm_compute. reflexivity. Qed.

(** ** [stable_diameter] on a permanent source *)

Lemma stable_diameter_round_source cp node own :
  let r := round (stable_diameter cp true) node own in
  retained (Some r.2) [1%N; 23%N; cp] =
  Some (default 0 (retained own [1%N; 23%N; cp]) + 0 * delta_time node)%Q.
Proof.
  cbv beta iota zeta delta
    [round stable_diameter CODE mbind M_bind mret M_ret integrate rdist old nbr
     ask mux fst snd].
  change (uid (with_own node own)) with (uid node).
  change (delta_time (with_own node own)) with (delta_time node).
  rewrite !exported_with_own.
  match goal with |- context [real_div ?a ?b] =>
    destruct (real_div a b) as [avgd|] end.
  - cbv beta iota zeta delta
      [mbind M_bind mret M_ret lowpass maxgossip CODE old nbr ask fst snd].
    rewrite !(retained_insert_ne _ _ [7%N; 25%N; cp]) by done.
    rewrite !(retained_insert_ne _ _ [0%N; 26%N; cp]) by done.
    rewrite (retained_insert_ne _ _ [1%N; 24%N; cp]) by done.
    apply retained_insert_eq.
  - cbv beta iota zeta delta [fst snd].
    rewrite (retained_insert_ne _ _ [1%N; 24%N; cp]) by done.
    apply retained_insert_eq.
Qed.

Lemma stable_diameter_source_from cp (nodes : list node_t) own (num0 den0 : Q) :
  retained own [1%N; 23%N; cp] = Some num0 → (num0 == 0)%Q →
  retained own [1%N; 24%N; cp] = Some den0 → (1 <= den0)%Q →
  Forall later_round nodes →
  ∀ n r, run (stable_diameter cp) own ((λ node, (true, node)) <$> nodes) !! n
         = Some r →
    ∃ avgd diam, r.1 = Some (true, avgd, diam) ∧ (avgd == 0)%Q.
Proof.
  revert own num0 den0.
  induction nodes as [|node rest IH];
    intros own num0 den0 Hnum Hnum0 Hden Hden0 Hall n r; [done|].
  apply Forall_cons in Hall as [[Hpos Hmono] Hrest].
  pose proof (stable_diameter_round_source cp node own) as Hn.
  destruct (stable_diameter_round cp true node own) as [Hd (num & Hn' & Hres)].
  cbv zeta in Hn. rewrite Hn in Hn'. injection Hn' as <-.
  rewrite Hnum in Hn, Hres. rewrite Hden in Hd, Hres.
  cbn [default from_option id] in Hn, Hd, Hres.
  assert (delta_time node = (current_time node - previous_time node)%Q) as Hdt.
  { unfold delta_time. apply Qltb_ge in Hpos. by rewrite Hpos. }
  rewrite Hdt in Hn, Hd, Hres.
  destruct n as [|n]; cbn [fmap list_fmap run lookup list_lookup].
  - intros [= <-].
    destruct (round (stable_diameter cp true) node own).1 as [[[src avgd] diam]|].
    + destruct Hres as [Hnz [= -> ->]]. do 2 eexists. split; [reflexivity|].
      rewrite Hnum0. field. lra.
    + exfalso. lra.
  - eapply IH; [exact Hn| |exact Hd| |exact Hrest].
    + rewrite Hnum0. ring.
    + lra.
Qed.

(** X18. With monotone round times, a device that is a source in every
    round gets from [stable_diameter], in every round, a result whose
    time-weighted average distance is 0. *)
Theorem stable_diameter_permanent_source cp (nodes : list node_t) :
  monotone_times ((λ node, (true, node)) <$> nodes) →
  let outs := run (stable_diameter cp) None ((λ node, (true, node)) <$> nodes) in
  length outs = length nodes ∧
  ∀ n r, outs !! n = Some r →
    ∃ avgd diam, r.1 = Some (true, avgd, diam) ∧ (avgd == 0)%Q.
Proof.
  intros Hmono outs. subst outs.
  split; [by rewrite run_length, length_fmap|]. revert Hmono.
  destruct nodes as [|first rest]; [done|].
  intros (Hneg & _ & Hrest) n r. cbn [snd] in Hneg.
  pose proof (stable_diameter_round_source cp first None) as Hn.
  destruct (stable_diameter_round cp true first None) as [Hd (num & Hn' & Hres)].
  cbv zeta in Hn. rewrite Hn in Hn'. injection Hn' as <-.
  cbn [retained default from_option id] in Hn, Hd, Hres.
  assert (delta_time first = 1%Q) as Hdt.
  { unfold delta_time. apply Qltb_lt in Hneg. by rewrite Hneg. }
  rewrite Hdt in Hn, Hd, Hres.
  destruct n as [|n]; cbn [fmap list_fmap run lookup list_lookup].
  - intros [= <-].
    destruct (round (stable_diameter cp true) first None).1
      as [[[src avgd] diam]|].
    + destruct Hres as [Hnz [= -> ->]]. do 2 eexists. split; [reflexivity|].
      field.
    + exfalso. lra.
  - eapply stable_diameter_source_from; [exact Hn| |exact Hd| |].
    + ring.
    + lra.
    + rewrite Forall_fmap in Hrest. eapply Forall_impl; [exact Hrest|].
      by intros node.
Qed.

Lemma stable_diameter_permanent_source_witness :
  let outs := run (stable_diameter 0) None source_rounds in
  length outs = length (lone_node :: later_rounds) ∧
  ∀ n r, outs !! n = Some r →
    ∃ avgd diam, r.1 = Some (true, avgd, diam) ∧ (avgd == 0)%Q.
Proof.
  apply (stable_diameter_permanent_source 0 (lone_node :: later_rounds)).
  unfold monotone_times, later_rounds, later_round. cbn.
  repeat first [split | apply Forall_cons | apply Forall_nil]; cbn; lra.
Defined.
